(** * SpotifyAgent: the session lifecycle and the resilient request pipeline

    A shallow embedding of [src/clients/spotify-client.ts] (class
    [SpotifyClient]), [src/utils/retry.ts] ([retryWithBackoff]),
    [src/utils/errors.ts] and [src/models/auth.ts].

    Conventions of the embedding:
    - an [async] method is a state transformer over a [World] holding the
      client's [this.tokens], the wall clock read by [Date.now()] and the
      chronological history of everything the process sent or awaited;
    - the remote side is a [Server]: two oracles (token endpoint and resource
      API) answering each request from the history so far, so that every
      deterministic or scripted server is an instance;
    - a JavaScript exception is the [Throw] outcome; the state reached when
      the exception was raised is kept, as in JavaScript;
    - numbers are integers ([Z]), a [Date] is its millisecond timestamp;
    - [console.log] output is not part of the model. *)

From Stdlib Require Import Ascii.
From Stdlib Require DecimalString DecimalNat.
From stdpp Require Import base numbers list strings gmap.

Local Open Scope string_scope.
Local Open Scope list_scope.

(** ** Data model *)

(** [models/song.ts]: the client never inspects a track, so only the two
    identifying fields are kept. *)
Record Song := { id : string; name : string }.

(** [models/auth.ts], interface [AuthTokens].  A missing [refresh_token]
    (JavaScript [undefined]) is [None]; [expires_at] is the [Date] as epoch
    milliseconds. *)
Record AuthTokens := {
  access_token : string;
  refresh_token : option string;
  token_type : string;
  expires_in : Z;
  scope : string;
  expires_at : Z
}.

(** The JSON body of a successful token-endpoint response
    ([TokenRefreshResponse], plus the [refresh_token] the authorization-code
    grant returns and a rotating server may return on refresh). *)
Module TokenData.
Record t := {
  access_token : string;
  refresh_token : option string;
  token_type : string;
  expires_in : Z;
  scope : string
}.
End TokenData.

(** [models/playlist.ts], interface [SpotifyTrackResponse] (the fields the
    client reads). *)
Record SavedItem := { added_at : string; track : Song }.
Record Page := { items : list SavedItem; next : option string }.

(** Bodies of successful resource-API responses: a page of saved tracks,
    a list of tracks, an object of which the client reads the [id] property
    ([None]: the object has no [id]), and any other body, of which the
    client reads nothing. *)
Inductive ApiData :=
| DPage (p : Page)
| DTracks (tracks : list Song)
| DOther (raw : string)
| DProfile (id : option string).

(** Error bodies.  The resource API answers [{error: {status, message}}],
    the token endpoint [{error: "code", error_description: "..."}]. *)
Inductive ErrorField :=
| ErrorObject (message : option string)
| ErrorCode (code : string).

Record ErrorData := {
  error : option ErrorField;
  error_description : option string
}.

(** The shape of an axios rejection: [error.response] (present when the
    server answered with a status outside 2xx), [error.request] (truthy when
    the request was sent) and [error.message]. *)
Record ErrorResponse := {
  status : Z;
  headers : gmap string string;
  data : option ErrorData
}.

Record AxiosError := {
  response : option ErrorResponse;
  request : bool;
  message : string
}.

(** The result of [parseInt(s, 10)]. *)
Inductive JsNumber := NaN | Int (z : Z).

(** [utils/errors.ts], together with the other values the client throws. *)
Inductive JsError :=
| SpotifyAPIError (message : string) (status : Z) (response : option ErrorData)
| AuthenticationError (message : string)
| RateLimitError (message : string) (retryAfter : option JsNumber)
| NetworkError (message : string) (originalError : AxiosError)
| Error (message : string)
| AxiosFailure (error : AxiosError)
| TypeError
| ThrownUndefined.

(** The [name] property set by each constructor. *)
Definition error_name (e : JsError) : string :=
  match e with
  | SpotifyAPIError _ _ _ => "SpotifyAPIError"
  | AuthenticationError _ => "AuthenticationError"
  | RateLimitError _ _ => "RateLimitError"
  | NetworkError _ _ => "NetworkError"
  | Error _ => "Error"
  | AxiosFailure _ => "AxiosError"
  | TypeError => "TypeError"
  | ThrownUndefined => "undefined"
  end.

(** The [status] property: [AuthenticationError] and [RateLimitError] pass
    401 and 429 to [super]. *)
Definition error_status (e : JsError) : option Z :=
  match e with
  | SpotifyAPIError _ s _ => Some s
  | AuthenticationError _ => Some 401%Z
  | RateLimitError _ _ => Some 429%Z
  | _ => None
  end.

(** ** The world *)

Inductive Method := GET | POST.

(** The body that [createPlaylist] posts. *)
Module PlaylistBody.
Record t := {
  name : string;
  description : string;
  public : bool;
  collaborative : bool
}.
End PlaylistBody.

(** A request of [this.httpClient].  The body is [{uris}] for
    [addTracksToPlaylist], a playlist description for [createPlaylist], and
    absent for a GET. *)
Record ApiRequest := {
  method : Method;
  url : string;
  authorization : option string;
  uris : option (list string);
  playlist : option PlaylistBody.t
}.

Inductive Event :=
| TokenPost (form : list (string * string))
| ApiCall (req : ApiRequest)
| Timeout (ms : Z).

Inductive AxiosOutcome (T : Type) :=
| Resolved (payload : T)
| Rejected (e : AxiosError).
Arguments Resolved {T} payload.
Arguments Rejected {T} e.

Record Reply (T : Type) := { outcome : AxiosOutcome T; latency : Z }.
Arguments outcome {T} r.
Arguments latency {T} r.

Record Server := {
  accounts : list Event → list (string * string) → Reply TokenData.t;
  api : list Event → ApiRequest → Reply ApiData
}.

Record World := {
  tokens : option AuthTokens;
  now : Z;
  history : list Event
}.

(** ** Asynchronous computations *)

Inductive Outcome (A : Type) :=
| Return (a : A)
| Throw (e : JsError)
| OutOfFuel.
Arguments Return {A} a.
Arguments Throw {A} e.
Arguments OutOfFuel {A}.

Definition M (A : Type) : Type := World → Outcome A * World.

Definition ret {A} (a : A) : M A := λ w, (Return a, w).
Definition throw {A} (e : JsError) : M A := λ w, (Throw e, w).

Definition bind {A B} (m : M A) (k : A → M B) : M B := λ w,
  match m w with
  | (Return a, w') => k a w'
  | (Throw e, w') => (Throw e, w')
  | (OutOfFuel, w') => (OutOfFuel, w')
  end.

Definition try_catch {A} (m : M A) (handler : JsError → M A) : M A := λ w,
  match m w with
  | (Throw e, w') => handler e w'
  | r => r
  end.

Notation "'let*' x ':=' m 'in' k" := (bind m (λ x, k))
  (at level 10, x name, m at level 100, k at level 200).
Notation "m1 ';;;' m2" := (bind m1 (λ _, m2))
  (at level 100, right associativity).

(** The time a Node timer set to [ms] runs: a delay below 1 or above
    [2^31 - 1] is replaced by 1. *)
Definition timer_delay (ms : Z) : Z :=
  if ((1 <=? ms) && (ms <=? 2147483647))%Z then ms else 1%Z.

(** [await new Promise(resolve => setTimeout(resolve, ms))]. *)
Definition setTimeout (ms : Z) (w : World) : World :=
  {| tokens := tokens w;
     now := (now w + timer_delay ms)%Z;
     history := history w ++ [Timeout ms] |}.

(** ** utils/retry.ts *)

(** [RetryOptions]: every field is optional.  The model covers the
    policies whose [maxRetries], the number of retries after the first
    attempt, is a natural number and whose delays and factor are
    integers. *)
Record RetryOptions := {
  maxRetries : option nat;
  baseDelay : option Z;
  maxDelay : option Z;
  backoffFactor : option Z
}.

Definition no_options : RetryOptions :=
  {| maxRetries := None; baseDelay := None; maxDelay := None;
     backoffFactor := None |}.

(** The destructured options with their defaults. *)
Record Policy := {
  p_maxRetries : nat;
  p_baseDelay : Z;
  p_maxDelay : Z;
  p_backoffFactor : Z
}.

Definition policy_of (options : RetryOptions) : Policy :=
  {| p_maxRetries := default 3 (maxRetries options);
     p_baseDelay := default 1000%Z (baseDelay options);
     p_maxDelay := default 10000%Z (maxDelay options);
     p_backoffFactor := default 2%Z (backoffFactor options) |}.

(** [Math.min(baseDelay * Math.pow(backoffFactor, attempt), maxDelay)]. *)
Definition backoff_delay (p : Policy) (attempt : nat) : Z :=
  Z.min (p_baseDelay p * p_backoffFactor p ^ Z.of_nat attempt)%Z (p_maxDelay p).

(** [throw lastError!]. *)
Definition throw_last {T} (lastError : option JsError) : M T :=
  match lastError with
  | Some e => throw e
  | None => throw ThrownUndefined
  end.

(** The [for (let attempt = 0; attempt <= maxRetries; attempt++)] loop.
    [fuel] bounds the number of iterations of the model. *)
Fixpoint retry_loop {T} (operation : M T) (p : Policy)
    (fuel attempt : nat) (lastError : option JsError) : M T := λ w,
  match fuel with
  | O => (OutOfFuel, w)
  | S fuel' =>
      if (attempt <=? p_maxRetries p)%nat then
        match operation w with
        | (Return v, w1) => (Return v, w1)
        | (Throw e, w1) =>
            if (attempt =? p_maxRetries p)%nat then throw_last (Some e) w1
            else
              let delay := backoff_delay p attempt in
              retry_loop operation p fuel' (S attempt) (Some e)
                (setTimeout delay w1)
        | (OutOfFuel, w1) => (OutOfFuel, w1)
        end
      else throw_last lastError w
  end.

Definition retryWithBackoff {T} (operation : M T) (options : RetryOptions)
    : M T :=
  let p := policy_of options in
  retry_loop operation p (S (p_maxRetries p)) 0 None.

(** The retrier as the specification words it: attempt; on success return
    at once; on failure stop with that failure at the final allowed attempt,
    otherwise wait the backoff delay and retry.  [retry_run op p i w r n ds]:
    started at attempt index [i] in world [w], the retrier ends in [r] after
    running [op] [n] times and sleeping the delays [ds]. *)
Inductive retry_run {T} (operation : M T) (p : Policy)
    : nat → World → Outcome T * World → nat → list Z → Prop :=
| run_success i w v w' :
    operation w = (Return v, w') →
    retry_run operation p i w (Return v, w') 1 []
| run_exhausted w e w' :
    operation w = (Throw e, w') →
    retry_run operation p (p_maxRetries p) w (Throw e, w') 1 []
| run_retry i w e w' r n ds :
    (i < p_maxRetries p)%nat →
    operation w = (Throw e, w') →
    retry_run operation p (S i) (setTimeout (backoff_delay p i) w') r n ds →
    retry_run operation p i w r (S n) (backoff_delay p i :: ds)
| run_diverge i w w' :
    operation w = (OutOfFuel, w') →
    retry_run operation p i w (OutOfFuel, w') 1 [].

(** ** JavaScript helpers *)

(** Truthiness of a string: only the empty string is falsy. *)
Definition truthy (s : string) : bool :=
  match s with
  | EmptyString => false
  | String _ _ => true
  end.

(** [v || fallback] for an optional string [v]. *)
Definition or_else (v : option string) (fallback : string) : string :=
  match v with
  | Some s => if truthy s then s else fallback
  | None => fallback
  end.

(** [String.prototype.replace(pattern, "")] with a string pattern: the
    first occurrence of [pattern] is removed, wherever it is. *)
Fixpoint remove_first (pattern s : string) : string :=
  if String.prefix pattern s
  then String.substring (String.length pattern)
         (String.length s - String.length pattern) s
  else match s with
       | EmptyString => EmptyString
       | String c s' => String c (remove_first pattern s')
       end.

(** [Array.prototype.join(sep)] on an array of strings. *)
Definition join (sep : string) (l : list string) : string :=
  String.concat sep l.

(** [Array.prototype.slice(start, end)] for [0 <= start <= end]. *)
Definition slice {A} (l : list A) (start stop : nat) : list A :=
  take (stop - start) (drop start l).

(** [parseInt(s, 10)]: leading white space (the ASCII one: tab, line feed,
    vertical tab, form feed, carriage return, space), an optional sign, then
    the longest run of decimal digits; [NaN] when there is no digit. *)
Definition is_space (c : Ascii.ascii) : bool :=
  let n := Ascii.nat_of_ascii c in
  ((9 <=? n) && (n <=? 13) || (n =? 32))%nat.

Fixpoint skip_spaces (s : string) : string :=
  match s with
  | String c s' => if is_space c then skip_spaces s' else s
  | EmptyString => s
  end.

Definition digit_of (c : Ascii.ascii) : option Z :=
  let n := Ascii.nat_of_ascii c in
  if ((48 <=? n) && (n <=? 57))%nat then Some (Z.of_nat (n - 48)) else None.

Fixpoint digits (s : string) (acc : option Z) : option Z :=
  match s with
  | String c s' =>
      match digit_of c with
      | Some d => digits s' (Some (10 * default 0 acc + d))%Z
      | None => acc
      end
  | EmptyString => acc
  end.

Definition parseInt (s : string) : JsNumber :=
  let signed (sign : Z) (body : string) :=
    match digits body None with
    | Some n => Int (sign * n)
    | None => NaN
    end in
  match skip_spaces s with
  | String "-"%char body => signed (-1)%Z body
  | String "+"%char body => signed 1%Z body
  | body => signed 1%Z body
  end.

(** [URLSearchParams.prototype.toString()]: the
    application/x-www-form-urlencoded serializer, on the bytes of the
    strings. *)
Definition hex_digit (n : nat) : Ascii.ascii :=
  Ascii.ascii_of_nat (if (n <? 10)%nat then 48 + n else 55 + n).

Definition form_safe (c : Ascii.ascii) : bool :=
  let n := Ascii.nat_of_ascii c in
  ((48 <=? n) && (n <=? 57) || (65 <=? n) && (n <=? 90)
   || (97 <=? n) && (n <=? 122)
   || (n =? 42) || (n =? 45) || (n =? 46) || (n =? 95))%nat.

Fixpoint form_encode (s : string) : string :=
  match s with
  | EmptyString => EmptyString
  | String c s' =>
      let n := Ascii.nat_of_ascii c in
      if form_safe c then String c (form_encode s')
      else if (n =? 32)%nat then String "+"%char (form_encode s')
      else String "%"%char (String (hex_digit (n / 16))
             (String (hex_digit (n mod 16)) (form_encode s')))
  end.

Definition URLSearchParams_toString (params : list (string * string))
    : string :=
  join "&" (map (λ kv, form_encode kv.1 +:+ "=" +:+ form_encode kv.2) params).

(** [batches = []; for (let i = 0; i < l.length; i += size)
    batches.push(l.slice(i, i + size))].  [None] when [fuel] iterations do
    not reach the end of the loop. *)
Fixpoint batch_loop {A} (size : nat) (l : list A) (fuel i : nat)
    (batches : list (list A)) : option (list (list A)) :=
  if (i <? length l)%nat then
    match fuel with
    | O => None
    | S fuel' =>
        batch_loop size l fuel' (i + size) (batches ++ [slice l i (i + size)])
    end
  else Some batches.

Definition make_batches {A} (size : nat) (l : list A)
    : option (list (list A)) :=
  batch_loop size l (length l) 0 [].

(** [for (const x of l) { s = body(x, s) }]. *)
Fixpoint for_of {A S} (l : list A) (body : A → S → M S) (s : S) : M S :=
  match l with
  | [] => ret s
  | x :: l' => let* s' := body x s in for_of l' body s'
  end.

(** ** config/index.ts *)

Record SpotifyConfig := {
  clientId : string;
  clientSecret : string;
  redirectUri : string
}.

Record Config := { spotify : SpotifyConfig }.

(** ** clients/spotify-client.ts *)

Definition Date_now : M Z := λ w, (Return (now w), w).

Definition get_tokens : M (option AuthTokens) := λ w, (Return (tokens w), w).

Definition set_tokens (t : option AuthTokens) : M unit := λ w,
  (Return tt, {| tokens := t; now := now w; history := history w |}).

(** [data?.error?.message]: a string [error] has no [message]. *)
Definition api_error_message (d : option ErrorData) : option string :=
  match d with
  | Some d =>
      match error d with
      | Some (ErrorObject m) => m
      | _ => None
      end
  | None => None
  end.

(** The kinds of the specification's Typed Failure, and the kind of each
    error class of [utils/errors.ts]. *)
Inductive FailureKind :=
| AuthenticationFailure
| RateLimited
| RemoteError
| TransportError.

Definition failure_kind (e : JsError) : option FailureKind :=
  match e with
  | AuthenticationError _ => Some AuthenticationFailure
  | RateLimitError _ _ => Some RateLimited
  | SpotifyAPIError _ _ _ => Some RemoteError
  | NetworkError _ _ => Some TransportError
  | _ => None
  end.

(** The rejection handler of the response interceptor: the error
    classifier.  It always throws; the value thrown is returned here. *)
Definition classify (err : AxiosError) : JsError :=
  match response err with
  | Some r =>
      if (status r =? 401)%Z then
        AuthenticationError "Invalid or expired token"
      else if (status r =? 429)%Z then
        let retryAfter := headers r !! "retry-after" in
        RateLimitError "Rate limit exceeded"
          match retryAfter with
          | Some v => if truthy v then Some (parseInt v) else None
          | None => None
          end
      else
        SpotifyAPIError
          (or_else (api_error_message (data r)) "Spotify API error")
          (status r) (data r)
  | None =>
      if request err then NetworkError "Network error" err
      else Error (message err)
  end.

Section Client.
Variable config : Config.
Variable server : Server.

(** The request interceptor: attach the bearer credential when a snapshot
    is stored. *)
Definition request_interceptor (req : ApiRequest) : M ApiRequest := λ w,
  match tokens w with
  | Some t =>
      (Return {| method := method req; url := url req;
                 authorization := Some ("Bearer " +:+ access_token t);
                 uris := uris req; playlist := playlist req |}, w)
  | None => (Return req, w)
  end.

(** One exchange on the wire of [this.httpClient]; the reply is the outcome
    as axios delivers it (its 10 s timeout included), and a rejection goes
    through the response interceptor. *)
Definition dispatch (req : ApiRequest) : M ApiData := λ w,
  let reply := api server (history w) req in
  let w' := {| tokens := tokens w;
               now := (now w + latency reply)%Z;
               history := history w ++ [ApiCall req] |} in
  match outcome reply with
  | Resolved d => (Return d, w')
  | Rejected e => (Throw (classify e), w')
  end.

Definition httpClient_get (path : string) : M ApiData :=
  let* req := request_interceptor
      {| method := GET; url := path; authorization := None; uris := None;
         playlist := None |} in
  dispatch req.

Definition httpClient_post (path : string) (body : list string) : M ApiData :=
  let* req := request_interceptor
      {| method := POST; url := path; authorization := None;
         uris := Some body; playlist := None |} in
  dispatch req.

(** [this.httpClient.post(path, {name, description, public,
    collaborative})]. *)
Definition httpClient_post_playlist (path : string) (body : PlaylistBody.t)
    : M ApiData :=
  let* req := request_interceptor
      {| method := POST; url := path; authorization := None;
         uris := None; playlist := Some body |} in
  dispatch req.

(** [axios.post("https://accounts.spotify.com/api/token", form, ...)] on
    the global axios instance: no interceptor, a rejection is the raw axios
    error. *)
Definition axios_post_token (form : list (string * string))
    : M TokenData.t := λ w,
  let reply := accounts server (history w) form in
  let w' := {| tokens := tokens w;
               now := (now w + latency reply)%Z;
               history := history w ++ [TokenPost form] |} in
  match outcome reply with
  | Resolved d => (Return d, w')
  | Rejected e => (Throw (AxiosFailure e), w')
  end.

(** The entries of the [URLSearchParams] of [generateAuthUrl]:
    [...(state && { state })] adds an entry for a truthy [state] only. *)
Definition authUrl_params (state : option string) : list (string * string) :=
  [("client_id", clientId (spotify config));
   ("response_type", "code");
   ("redirect_uri", redirectUri (spotify config));
   ("scope",
    "user-library-read playlist-modify-public playlist-modify-private")]
  ++ match state with
     | Some s => if truthy s then [("state", s)] else []
     | None => []
     end.

Definition generateAuthUrl (state : option string) : M string :=
  let params := authUrl_params state in
  ret ("https://accounts.spotify.com/authorize?"
       +:+ URLSearchParams_toString params).

(** [error.response?.data?.error_description]. *)
Definition description_of (e : AxiosError) : option string :=
  match response e with
  | Some r =>
      match data r with
      | Some d => error_description d
      | None => None
      end
  | None => None
  end.

Definition exchangeCodeForToken (code : string) : M AuthTokens :=
  try_catch
    (let* tokenData := axios_post_token
        [("grant_type", "authorization_code");
         ("code", code);
         ("redirect_uri", redirectUri (spotify config));
         ("client_id", clientId (spotify config));
         ("client_secret", clientSecret (spotify config))] in
     let* t := Date_now in
     let snapshot :=
       {| access_token := TokenData.access_token tokenData;
          refresh_token := TokenData.refresh_token tokenData;
          token_type := TokenData.token_type tokenData;
          expires_in := TokenData.expires_in tokenData;
          scope := TokenData.scope tokenData;
          expires_at := (t + TokenData.expires_in tokenData * 1000)%Z |} in
     set_tokens (Some snapshot) ;;;
     ret snapshot)
    (λ error,
       match error with
       | AxiosFailure e =>
           throw (AuthenticationError
                    (or_else (description_of e) "Token exchange failed"))
       | _ => throw error
       end).

(** [this.tokens?.refresh_token] when truthy. *)
Definition stored_refresh_token (w : World) : option (AuthTokens * string) :=
  match tokens w with
  | Some t =>
      match refresh_token t with
      | Some r => if truthy r then Some (t, r) else None
      | None => None
      end
  | None => None
  end.

(** No other task runs between the guard and the assignment, so the
    snapshot read by the guard is the one spread into the new object. *)
Definition refreshAccessToken : M string := λ w,
  match stored_refresh_token w with
  | None => throw (AuthenticationError "No refresh token available") w
  | Some (stored, r) =>
      try_catch
        (let* tokenData := axios_post_token
            [("grant_type", "refresh_token");
             ("refresh_token", r);
             ("client_id", clientId (spotify config));
             ("client_secret", clientSecret (spotify config))] in
         let* t := Date_now in
         let snapshot :=
           {| access_token := TokenData.access_token tokenData;
              refresh_token := refresh_token stored;
              token_type := token_type stored;
              expires_in := expires_in stored;
              scope := scope stored;
              expires_at := (t + TokenData.expires_in tokenData * 1000)%Z |} in
         set_tokens (Some snapshot) ;;;
         ret (access_token snapshot))
        (λ error,
           match error with
           | AxiosFailure e =>
               throw (AuthenticationError
                        (or_else (description_of e) "Token refresh failed"))
           | _ => throw error
           end) w
  end.

Definition ensureValidToken : M unit := λ w,
  match tokens w with
  | None => throw (AuthenticationError "Not authenticated") w
  | Some t =>
      let fiveMinutesFromNow := (now w + 5 * 60 * 1000)%Z in
      if (expires_at t <=? fiveMinutesFromNow)%Z
      then (refreshAccessToken ;;; ret tt) w
      else ret tt w
  end.

(** The [while (nextUrl)] loop of [getLikedSongs]; [fuel] bounds the
    number of pages the model follows. *)
Fixpoint likedSongs_loop (fuel : nat) (nextUrl : option string)
    (allSongs : list Song) : M (list Song) :=
  match nextUrl with
  | Some u =>
      if truthy u then
        match fuel with
        | O => λ w, (OutOfFuel, w)
        | S fuel' =>
            let* response :=
              retryWithBackoff (httpClient_get u) no_options in
            match response with
            | DPage page =>
                let songs := map track (items page) in
                let allSongs := allSongs ++ songs in
                let nextUrl :=
                  match next page with
                  | Some n =>
                      if truthy n
                      then Some (remove_first "https://api.spotify.com/v1" n)
                      else None
                  | None => None
                  end in
                likedSongs_loop fuel' nextUrl allSongs
            | _ => throw TypeError
            end
        end
      else ret allSongs
  | None => ret allSongs
  end.

Definition getLikedSongs (fuel : nat) : M (list Song) :=
  ensureValidToken ;;;
  likedSongs_loop fuel (Some "/me/tracks?limit=50") [].

Definition getTrackDetails (trackIds : list string) : M (list Song) :=
  ensureValidToken ;;;
  match make_batches 50 trackIds with
  | None => λ w, (OutOfFuel, w)
  | Some batches =>
      for_of batches
        (λ batch allTracks,
           let* response :=
             retryWithBackoff
               (httpClient_get ("/tracks?ids=" +:+ join "," batch))
               no_options in
           match response with
           | DTracks tracks => ret (allTracks ++ tracks)
           | _ => throw TypeError
           end)
        []
  end.

Definition addTracksToPlaylist (playlistId : string)
    (trackUris : list string) : M unit :=
  ensureValidToken ;;;
  match make_batches 100 trackUris with
  | None => λ w, (OutOfFuel, w)
  | Some batches =>
      for_of batches
        (λ batch _,
           retryWithBackoff
             (httpClient_post ("/playlists/" +:+ playlistId +:+ "/tracks")
                batch)
             no_options ;;;
           ret tt)
        tt
  end.

Definition isAuthenticated : M bool := λ w,
  (Return (match tokens w with Some _ => true | None => false end), w).

Definition getTokens : M (option AuthTokens) := get_tokens.

Definition setTokens (t : AuthTokens) : M unit := set_tokens (Some t).

End Client.

(** ** clients/spotify-client.ts: [createPlaylist]

    [models/playlist.ts], interface [CreatePlaylistRequest]. *)
Module CreatePlaylistRequest.
Record t := {
  name : string;
  description : string;
  public : option bool;
  collaborative : option bool
}.
End CreatePlaylistRequest.

(** [data.id] of a response body; [None] is [undefined]. *)
Definition data_id (d : ApiData) : option string :=
  match d with
  | DProfile i => i
  | _ => None
  end.

Section CreatePlaylist.
Variable config : Config.
Variable server : Server.

(** The template literal renders an [undefined] id as "undefined". *)
Definition createPlaylist (request : CreatePlaylistRequest.t) : M ApiData :=
  ensureValidToken config server ;;;
  let* userResponse := httpClient_get server "/me" in
  let userId := default "undefined" (data_id userResponse) in
  let* response :=
    retryWithBackoff
      (httpClient_post_playlist server
         ("/users/" +:+ userId +:+ "/playlists")
         {| PlaylistBody.name := CreatePlaylistRequest.name request;
            PlaylistBody.description :=
              CreatePlaylistRequest.description request;
            PlaylistBody.public :=
              default false (CreatePlaylistRequest.public request);
            PlaylistBody.collaborative :=
              default false (CreatePlaylistRequest.collaborative request) |})
      no_options in
  ret response.

End CreatePlaylist.

(** ** Observations on a run

    Notions used to state what a run did: the forms and requests it put on
    the wire, sequences of calls, page sequences. *)

(** The forms posted to the token endpoint. *)
Definition authorization_code_form (config : Config) (code : string)
    : list (string * string) :=
  [("grant_type", "authorization_code");
   ("code", code);
   ("redirect_uri", redirectUri (spotify config));
   ("client_id", clientId (spotify config));
   ("client_secret", clientSecret (spotify config))].

Definition refresh_token_form (config : Config) (r : string)
    : list (string * string) :=
  [("grant_type", "refresh_token");
   ("refresh_token", r);
   ("client_id", clientId (spotify config));
   ("client_secret", clientSecret (spotify config))].

(** The refresh grants among the requests of a history. *)
Definition is_refresh_post (ev : Event) : bool :=
  match ev with
  | TokenPost form => bool_decide (("grant_type", "refresh_token") ∈ form)
  | _ => false
  end.

Definition refresh_calls (h : list Event) : nat :=
  length (List.filter is_refresh_post h).

(** The requests of the resource API among the events of a history. *)
Definition api_calls (h : list Event) : list ApiRequest :=
  omap (λ ev, match ev with ApiCall req => Some req | _ => None end) h.

(** The request as the request interceptor leaves it under the stored
    snapshot [t]. *)
Definition with_bearer (t : option AuthTokens) (req : ApiRequest)
    : ApiRequest :=
  match t with
  | Some t => {| method := method req; url := url req;
                 authorization := Some ("Bearer " +:+ access_token t);
                 uris := uris req; playlist := playlist req |}
  | None => req
  end.

Definition get_request (path : string) : ApiRequest :=
  {| method := GET; url := path; authorization := None; uris := None;
     playlist := None |}.

Definition post_request (path : string) (body : list string) : ApiRequest :=
  {| method := POST; url := path; authorization := None;
     uris := Some body; playlist := None |}.

Definition playlist_request (path : string) (body : PlaylistBody.t)
    : ApiRequest :=
  {| method := POST; url := path; authorization := None;
     uris := None; playlist := Some body |}.

(** A request of [this.httpClient] through both interceptors. *)
Definition send (server : Server) (req : ApiRequest) : M ApiData :=
  let* r := request_interceptor req in dispatch server r.

(** A sequence of calls, one per element of a list and in the order of the
    list, each started in the world its predecessor left and each returning
    normally: [calls_in_order f xs w rs w'] gives the results [rs] and the
    final world [w']. *)
Inductive calls_in_order {A R} (f : A → M R)
    : list A → World → list R → World → Prop :=
| calls_nil w : calls_in_order f [] w [] w
| calls_cons x xs w r w1 rs w2 :
    f x w = (Return r, w1) →
    calls_in_order f xs w1 rs w2 →
    calls_in_order f (x :: xs) w (r :: rs) w2.

(** [ceil(a / b)]. *)
Definition ceil_div (a b : nat) : nat := ((a + b - 1) / b)%nat.

(** The loop body of [getTrackDetails] over a fetch [f] of one batch. *)
Definition collect_tracks (f : list string → M ApiData)
    (batch : list string) (allTracks : list Song) : M (list Song) :=
  let* response := f batch in
  match response with
  | DTracks tracks => ret (allTracks ++ tracks)
  | _ => throw TypeError
  end.

(** The value [getLikedSongs] gives [nextUrl] after a page: the page's
    [next] without the API origin, or [null]. *)
Definition next_url (page : Page) : option string :=
  match next page with
  | Some n =>
      if truthy n
      then Some (remove_first "https://api.spotify.com/v1" n)
      else None
  | None => None
  end.

(** A page sequence as the server delivers it to a fetch function: every
    page but the last carries a [next] cursor, which is followed; the last
    has [next: null]. *)
Inductive pages_in_order (fetch : string → M ApiData)
    : string → World → list Page → World → Prop :=
| pages_last u w p w' :
    fetch u w = (Return (DPage p), w') →
    next p = None →
    pages_in_order fetch u w [p] w'
| pages_more u w p w1 u' ps w' :
    fetch u w = (Return (DPage p), w1) →
    next_url p = Some u' →
    truthy u' = true →
    pages_in_order fetch u' w1 ps w' →
    pages_in_order fetch u w (p :: ps) w'.

(** The paths requested for a page sequence that starts at [first]. *)
Fixpoint page_urls (first : string) (pages : list Page) : list string :=
  match pages with
  | [] => []
  | p :: ps =>
      first :: match next_url p with
               | Some u => page_urls u ps
               | None => []
               end
  end.

(** The tracks of a page sequence, page after page. *)
Definition tracks_of (pages : list Page) : list Song :=
  concat (map (λ p, map track (items p)) pages).

(** ** Scenarios

    Concrete configurations, sessions and servers. *)

(** A configuration, and a session that has not authenticated yet. *)
Definition test_config : Config :=
  {| spotify := {| clientId := "client-id"; clientSecret := "secret";
                   redirectUri := "http://localhost:3000/callback" |} |}.

Definition fresh_session : World :=
  {| tokens := None; now := 1700000000000; history := [] |}.

(** A stored snapshot expiring at [expiry]. *)
Definition session_expiring (expiry : Z) (r : option string) : World :=
  {| tokens := Some {| access_token := "A"; refresh_token := r;
                       token_type := "Bearer"; expires_in := 3600;
                       scope := "x"; expires_at := expiry |};
     now := 1700000000000; history := [] |}.

(** A session whose snapshot is valid for another hour. *)
Definition valid_session : World :=
  session_expiring (1700000000000 + 3600 * 1000) (Some "R").

(** A 429 response whose [retry-after] header is [v] ([None]: no such
    header). *)
Definition rate_limited (v : option string) : AxiosError :=
  {| response :=
       Some {| status := 429;
               headers := match v with
                          | Some v => {[ "retry-after" := v ]}
                          | None => ∅
                          end;
               data := None |};
     request := true;
     message := "Request failed with status code 429" |}.

(** A response with status [s] and the resource API's error body
    [{error: {message: m}}]. *)
Definition api_failure (s : Z) (m : option string) : AxiosError :=
  {| response :=
       Some {| status := s; headers := ∅;
               data := Some {| error := Some (ErrorObject m);
                               error_description := None |} |};
     request := true;
     message := "Request failed" |}.

(** A request that was sent and never answered. *)
Definition connection_refused : AxiosError :=
  {| response := None; request := true;
     message := "connect ECONNREFUSED" |}.

Definition not_found : AxiosError := api_failure 404 (Some "Not found").

(** A playlist server that accepts the first request it sees and answers
    500 to every later one. *)
Definition server_error : AxiosError := api_failure 500 (Some "Server error").

Definition invalid_grant : AxiosError :=
  {| response :=
       Some {| status := 400; headers := ∅;
               data := Some {| error := Some (ErrorCode "invalid_grant");
                               error_description :=
                                 Some "Invalid authorization code" |} |};
     request := true;
     message := "Request failed with status code 400" |}.

(** The token response of the specification's scenario. *)
Definition token_response : TokenData.t :=
  {| TokenData.access_token := "A"; TokenData.refresh_token := Some "R";
     TokenData.token_type := "Bearer"; TokenData.expires_in := 3600;
     TokenData.scope := "x" |}.

(** A refresh response of a server that rotates the refresh token. *)
Definition rotated_response : TokenData.t :=
  {| TokenData.access_token := "A2"; TokenData.refresh_token := Some "R2";
     TokenData.token_type := "Bearer"; TokenData.expires_in := 1800;
     TokenData.scope := "x" |}.

(** A server whose token endpoint always gives [r] after 120 ms and whose
    resource API is unreachable. *)
Definition token_server (r : AxiosOutcome TokenData.t) : Server :=
  {| accounts := λ _ _, {| outcome := r; latency := 120 |};
     api := λ _ _, {| outcome := Rejected connection_refused;
                      latency := 3 |} |}.

(** The two-page scenario of the specification. *)
Definition saved (n : string) : SavedItem :=
  {| added_at := "2023-01-15T10:30:00Z";
     track := {| id := n; name := "Song " +:+ n |} |}.

Definition page1 : Page :=
  {| items := [saved "1"; saved "2"];
     next := Some "https://api.spotify.com/v1/me/tracks?offset=2&limit=50" |}.

Definition page2 : Page := {| items := [saved "3"]; next := None |}.

Definition two_page_server : Server :=
  {| accounts := λ _ _, {| outcome := Rejected invalid_grant; latency := 80 |};
     api := λ _ req,
       {| outcome :=
            if String.eqb (url req) "/me/tracks?limit=50"
            then Resolved (DPage page1)
            else if String.eqb (url req) "/me/tracks?offset=2&limit=50"
            then Resolved (DPage page2)
            else Rejected not_found;
          latency := 40 |} |}.

(** A resource API that fails once and then serves [page2], the last
    page. *)
Definition flaky_server : Server :=
  {| accounts := λ _ _, {| outcome := Rejected invalid_grant; latency := 80 |};
     api := λ h _,
       {| outcome := match api_calls h with
                     | [] => Rejected server_error
                     | _ => Resolved (DPage page2)
                     end;
          latency := 40 |} |}.

(** A catalog server: [GET /tracks?ids=a,b,c] is answered with the tracks
    of [a], [b] and [c], in that order. *)
Fixpoint split_on (sep : Ascii.ascii) (s : string) : list string :=
  match s with
  | EmptyString => [EmptyString]
  | String c s' =>
      if Ascii.eqb c sep then EmptyString :: split_on sep s'
      else match split_on sep s' with
           | x :: r => String c x :: r
           | [] => [String c EmptyString]
           end
  end.

Definition catalog (n : string) : Song := {| id := n; name := "Song " +:+ n |}.

Definition catalog_server : Server :=
  {| accounts := λ _ _, {| outcome := Rejected invalid_grant; latency := 80 |};
     api := λ _ req,
       {| outcome :=
            if String.prefix "/tracks?ids=" (url req)
            then Resolved
                   (DTracks
                      (map catalog
                         (split_on ","
                            (String.substring 12 (String.length (url req))
                               (url req)))))
            else Rejected not_found;
          latency := 40 |} |}.

Definition failing_after_first : Server :=
  {| accounts := λ _ _, {| outcome := Rejected invalid_grant; latency := 80 |};
     api := λ h _,
       {| outcome := match api_calls h with
                     | [] => Resolved (DOther "{snapshot_id}")
                     | _ => Rejected server_error
                     end;
          latency := 40 |} |}.

(** ** config/index.ts: [loadConfig]

    [Config] above is the part of the configuration the client reads; the
    whole interface is [Loaded.t].  [process.env] is a finite map. *)
Module Loaded.
Record openai_t := { apiKey : string }.
Record server_t := { port : JsNumber; nodeEnv : string }.
Record cache_t := { directory : string }.
Record t := {
  spotify : SpotifyConfig;
  openai : openai_t;
  server : server_t;
  cache : cache_t
}.
End Loaded.

Inductive ConfigError := ConfigurationError (message : string).

Definition requiredEnvVars : list string :=
  ["SPOTIFY_CLIENT_ID"; "SPOTIFY_CLIENT_SECRET"; "SPOTIFY_REDIRECT_URI";
   "OPENAI_API_KEY"].

(** [!process.env[varName]]: an unset variable and an empty one are both
    falsy. *)
Definition env_missing (env : gmap string string) (varName : string) : bool :=
  match env !! varName with
  | Some s => negb (truthy s)
  | None => true
  end.

(** [process.env.X!] in the branch where [X] was found set. *)
Definition env_get (env : gmap string string) (varName : string) : string :=
  default EmptyString (env !! varName).

Definition loadConfig (env : gmap string string) : ConfigError + Loaded.t :=
  let missingVars := List.filter (env_missing env) requiredEnvVars in
  if (0 <? length missingVars)%nat then
    inl (ConfigurationError
           ("Missing required environment variables: "
            +:+ join ", " missingVars))
  else
    inr {| Loaded.spotify :=
             {| clientId := env_get env "SPOTIFY_CLIENT_ID";
                clientSecret := env_get env "SPOTIFY_CLIENT_SECRET";
                redirectUri := env_get env "SPOTIFY_REDIRECT_URI" |};
           Loaded.openai := {| Loaded.apiKey := env_get env "OPENAI_API_KEY" |};
           Loaded.server :=
             {| Loaded.port := parseInt (or_else (env !! "PORT") "3000");
                Loaded.nodeEnv := or_else (env !! "NODE_ENV") "development" |};
           Loaded.cache :=
             {| Loaded.directory :=
                  or_else (env !! "CACHE_DIR") "data/analysis-cache.json" |} |}.

(** The constructor's [this.config = config || loadConfig()]. *)
Definition constructor_config (config : option Config)
    (env : gmap string string) : ConfigError + Config :=
  match config with
  | Some c => inr c
  | None =>
      match loadConfig env with
      | inl e => inl e
      | inr c => inr {| spotify := Loaded.spotify c |}
      end
  end.

(** ** utils/errors.ts: the class hierarchy

    [AuthenticationError] and [RateLimitError] extend [SpotifyAPIError];
    [NetworkError] extends [Error] directly. *)
Definition instanceof_SpotifyAPIError (e : JsError) : bool :=
  match e with
  | SpotifyAPIError _ _ _ | AuthenticationError _ | RateLimitError _ _ => true
  | _ => false
  end.

(** Environments: a complete one, and one where two required variables are
    unset and a third is empty. *)
Definition complete_env : gmap string string :=
  {[ "SPOTIFY_CLIENT_ID" := "client-id";
     "SPOTIFY_CLIENT_SECRET" := "secret";
     "SPOTIFY_REDIRECT_URI" := "http://localhost:3000/callback";
     "OPENAI_API_KEY" := "sk-test";
     "PORT" := "8080" ]}.

Definition partial_env : gmap string string :=
  {[ "SPOTIFY_CLIENT_ID" := "client-id"; "OPENAI_API_KEY" := "" ]}.

(** A failure before the request was sent. *)
Definition setup_failure : AxiosError :=
  {| response := None; request := false; message := "Invalid URL" |}.


(** The [Authorization] header a request carries under the snapshot [t]. *)
Definition authorized_by (t : option AuthTokens) (q : ApiRequest) : Prop :=
  authorization q = (λ t, "Bearer " +:+ access_token t) <$> t.

(** A computation bound to the session: it leaves [this.tokens] alone, and
    every request it sends to the resource API carries the bearer of the
    snapshot stored when it started. *)
Definition session_bound {A} (m : M A) : Prop :=
  ∀ w,
    tokens (m w).2 = tokens w
    ∧ ∃ sent,
        api_calls (history (m w).2) = api_calls (history w) ++ sent
        ∧ Forall (authorized_by (tokens w)) sent.

(** An operation that changes [this.tokens] through the pre-flight check
    only, never clears it, and whose requests to the resource API all
    carry the bearer of the snapshot the pre-flight check left. *)
Definition after_preflight {A} (config : Config) (server : Server)
    (op : M A) (w : World) : Prop :=
  let w1 := (ensureValidToken config server w).2 in
  tokens (op w).2 = tokens w1
  ∧ (is_Some (tokens w) → is_Some (tokens (op w).2))
  ∧ ∃ sent,
      api_calls (history (op w).2) = api_calls (history w) ++ sent
      ∧ Forall (authorized_by (tokens w1)) sent.

(** The catalog server behind a token endpoint that answers every grant
    with [d]. *)
Definition refreshing_server (d : TokenData.t) : Server :=
  {| accounts := λ _ _, {| outcome := Resolved d; latency := 120 |};
     api := api catalog_server |}.

(** A token response with a lifetime of four minutes. *)
Definition short_lived_response : TokenData.t :=
  {| TokenData.access_token := "A3"; TokenData.refresh_token := None;
     TokenData.token_type := "Bearer"; TokenData.expires_in := 240;
     TokenData.scope := "x" |}.



(** The first pages of a sequence: after [pages], fetched one after the
    other, the loop is about to fetch [u'] in the world [w']. *)
Inductive pages_followed (fetch : string → M ApiData)
    : string → World → list Page → string → World → Prop :=
| followed_nil u w : pages_followed fetch u w [] u w
| followed_cons u w p w1 u1 ps u' w' :
    fetch u w = (Return (DPage p), w1) →
    next_url p = Some u1 →
    truthy u1 = true →
    pages_followed fetch u1 w1 ps u' w' →
    pages_followed fetch u w (p :: ps) u' w'.

(** A server whose pages always point to a next page. *)
Definition cyclic_server : Server :=
  {| accounts := λ _ _, {| outcome := Rejected invalid_grant; latency := 80 |};
     api := λ _ _, {| outcome := Resolved (DPage page1); latency := 40 |} |}.

(** A server that serves [page1] first and answers 500 afterwards. *)
Definition failing_second_page : Server :=
  {| accounts := λ _ _, {| outcome := Rejected invalid_grant; latency := 80 |};
     api := λ h _,
       {| outcome := match api_calls h with
                     | [] => Resolved (DPage page1)
                     | _ => Rejected server_error
                     end;
          latency := 40 |} |}.

(** A single page whose [next] is the bare API origin. *)
Definition origin_page : Page :=
  {| items := [saved "9"]; next := Some "https://api.spotify.com/v1" |}.

Definition origin_page_server : Server :=
  {| accounts := λ _ _, {| outcome := Rejected invalid_grant; latency := 80 |};
     api := λ _ _, {| outcome := Resolved (DPage origin_page);
                      latency := 40 |} |}.

(** A resource API that answers "/me" with a profile [profile] and every
    playlist post with the path it was posted to. *)
Definition me_server (profile : ApiData) : Server :=
  {| accounts := λ _ _, {| outcome := Rejected invalid_grant; latency := 80 |};
     api := λ _ req,
       {| outcome :=
            if String.eqb (url req) "/me" then Resolved profile
            else match playlist req with
                 | Some _ => Resolved (DOther (url req))
                 | None => Rejected not_found
                 end;
          latency := 40 |} |}.

Definition party_request : CreatePlaylistRequest.t :=
  {| CreatePlaylistRequest.name := "Party";
     CreatePlaylistRequest.description := "Upbeat";
     CreatePlaylistRequest.public := None;
     CreatePlaylistRequest.collaborative := None |}.

(** ** Reading back what the client serializes

    The inverse operations a server applies: whether a character occurs in
    a string, the split at the first occurrence of a separator, percent
    decoding, and the parsing of a query string. *)
Fixpoint has_char (c : Ascii.ascii) (s : string) : bool :=
  match s with
  | EmptyString => false
  | String x s' => Ascii.eqb x c || has_char c s'
  end.

Fixpoint break_at (sep : Ascii.ascii) (s : string) : string * string :=
  match s with
  | EmptyString => (EmptyString, EmptyString)
  | String c s' =>
      if Ascii.eqb c sep then (EmptyString, s')
      else let (a, b) := break_at sep s' in (String c a, b)
  end.

Definition hex_value (c : Ascii.ascii) : option nat :=
  let n := Ascii.nat_of_ascii c in
  if ((48 <=? n) && (n <=? 57))%nat then Some (n - 48)%nat
  else if ((65 <=? n) && (n <=? 70))%nat then Some (n - 55)%nat
  else if ((97 <=? n) && (n <=? 102))%nat then Some (n - 87)%nat
  else None.

Fixpoint form_decode (s : string) : string :=
  match s with
  | EmptyString => EmptyString
  | String c rest =>
      if Ascii.eqb c "+" then String " " (form_decode rest)
      else if Ascii.eqb c "%" then
        match rest with
        | String a (String b rest') =>
            match hex_value a, hex_value b with
            | Some x, Some y =>
                String (Ascii.ascii_of_nat (16 * x + y)) (form_decode rest')
            | _, _ => String c (form_decode rest)
            end
        | _ => String c (form_decode rest)
        end
      else String c (form_decode rest)
  end.

Definition parse_query (q : string) : list (string * string) :=
  match q with
  | EmptyString => []
  | _ =>
      map (λ piece, let (k, v) := break_at "=" piece in
                    (form_decode k, form_decode v))
        (split_on "&" q)
  end.

(** The decimal numeral of a natural number, and the value of a numeral
    read digit by digit after the digits already read as [acc]. *)
Definition numeral (n : nat) : string :=
  DecimalString.NilEmpty.string_of_uint (Nat.to_uint n).

Fixpoint value_after (acc : Z) (d : Decimal.uint) : Z :=
  match d with
  | Decimal.Nil => acc
  | Decimal.D0 d => value_after (10 * acc) d
  | Decimal.D1 d => value_after (10 * acc + 1) d
  | Decimal.D2 d => value_after (10 * acc + 2) d
  | Decimal.D3 d => value_after (10 * acc + 3) d
  | Decimal.D4 d => value_after (10 * acc + 4) d
  | Decimal.D5 d => value_after (10 * acc + 5) d
  | Decimal.D6 d => value_after (10 * acc + 6) d
  | Decimal.D7 d => value_after (10 * acc + 7) d
  | Decimal.D8 d => value_after (10 * acc + 8) d
  | Decimal.D9 d => value_after (10 * acc + 9) d
  end%Z.

(** A server that answers the first request of the resource API with one
    track and rejects every later one with a 500. *)
Definition one_chunk_server : Server :=
  {| accounts := λ _ _, {| outcome := Rejected invalid_grant; latency := 80 |};
     api := λ h _,
       {| outcome := match api_calls h with
                     | [] => Resolved (DTracks [catalog "t"])
                     | _ => Rejected server_error
                     end;
          latency := 40 |} |}.

(** The world [elapsed] milliseconds later, nothing else having happened. *)
Definition later (elapsed : Z) (w : World) : World :=
  {| tokens := tokens w; now := (now w + elapsed)%Z; history := history w |}.

(** A token response without a refresh token. *)
Definition bare_response : TokenData.t :=
  {| TokenData.access_token := "A"; TokenData.refresh_token := None;
     TokenData.token_type := "Bearer"; TokenData.expires_in := 3600;
     TokenData.scope := "x" |}.



(** * Verification *)

(** ** Properties of the retrier *)

Section Retry.
Context {T : Type}.
Variable operation : M T.
Variable p : Policy.

Lemma retry_loop_run fuel attempt lastError w :
  (attempt ≤ p_maxRetries p)%nat →
  (S (p_maxRetries p) - attempt ≤ fuel)%nat →
  ∃ n ds,
    retry_run operation p attempt w
      (retry_loop operation p fuel attempt lastError w) n ds
    ∧ (1 ≤ n)%nat ∧ (n + attempt ≤ S (p_maxRetries p))%nat
    ∧ ds = map (backoff_delay p) (seq attempt (n - 1)).
Proof.
  revert attempt lastError w.
  induction fuel as [|fuel IH]; intros attempt lastError w Hle Hfuel;
    [lia|].
  cbn [retry_loop].
  destruct (Nat.leb_spec attempt (p_maxRetries p)) as [_|Hgt]; [|lia].
  destruct (operation w) as [[v|e|] w1] eqn:Hop.
  - exists 1%nat, []. split_and!; [by apply run_success|lia|lia|done].
  - destruct (Nat.eqb_spec attempt (p_maxRetries p)) as [->|Hne].
    + exists 1%nat, []. split_and!; [by apply run_exhausted|lia|lia|done].
    + destruct (IH (S attempt) (Some e)
        (setTimeout (backoff_delay p attempt) w1)) as (n & ds & Hrun & H1 & Hn & Hds);
        [lia|lia|].
      exists (S n), (backoff_delay p attempt :: ds).
      split_and!; [eapply run_retry; eauto; lia|lia|lia|].
      rewrite Hds. replace (S n - 1)%nat with (S (n - 1)) by lia. done.
  - exists 1%nat, []. split_and!; [by apply run_diverge|lia|lia|done].
Qed.


Lemma retry_run_throw_exhausted i w e w' n ds :
  retry_run operation p i w (Throw e, w') n ds →
  (n + i = S (p_maxRetries p))%nat.
Proof.
  intros H. remember (Throw e, w') as r eqn:Hr.
  induction H; try discriminate; [lia|].
  specialize (IHretry_run Hr). lia.
Qed.
End Retry.





(** ** The error classifier *)

Lemma or_else_truthy (v : option string) (fallback s : string) :
  v = Some s → s ≠ "" → or_else v fallback = s.
Proof. intros -> Hs. destruct s; [done|]. reflexivity. Qed.

Lemma or_else_fallback (v : option string) (fallback : string) :
  v = None ∨ v = Some "" → or_else v fallback = fallback.
Proof. by intros [-> | ->]. Qed.

(** C2, as stated, fails: a 429 response whose [retry-after] header is
    present with an empty value is classified as a [RateLimitError] without
    hint, not with the parsed header. *)
Lemma classify_empty_retry_after :
  ∃ r, response (rate_limited (Some "")) = Some r
     ∧ status r = 429%Z
     ∧ headers r !! "retry-after" = Some ""
     ∧ classify (rate_limited (Some ""))
       = RateLimitError "Rate limit exceeded" None
     ∧ classify (rate_limited (Some ""))
       ≠ RateLimitError "Rate limit exceeded" (Some (parseInt "")).
Proof.
  eexists. split; [reflexivity|]. split; [reflexivity|].
  split; [by vm_compute|]. split; [by vm_compute|].
  vm_compute. discriminate.
Qed.

(** C2 (amended).  Every rejection that carries a response, or whose
    request was sent without being answered, is classified as exactly one
    Typed Failure: status 401 as [AuthenticationError]; status 429 as
    [RateLimitError] with [parseInt] of the [retry-after] header when that
    header is present and non-empty, and without hint otherwise; every other
    status as [SpotifyAPIError] with the status, the raw body and the
    server's message, that is the [message] of the object [error] of the
    body, when it is present and non-empty; the message is the generic
    "Spotify API error" when there is no body, no [error], an [error] that
    is a string, or an [error] object without a [message] or with an empty
    one; no response as [NetworkError] wrapping the axios error. *)
Theorem classify_typed_failure (err : AxiosError) :
  (is_Some (response err) ∨ request err = true →
     ∃ k, failure_kind (classify err) = Some k)
  ∧ (∀ r, response err = Some r → status r = 401%Z →
       classify err = AuthenticationError "Invalid or expired token")
  ∧ (∀ r v, response err = Some r → status r = 429%Z →
       headers r !! "retry-after" = Some v → v ≠ "" →
       classify err
       = RateLimitError "Rate limit exceeded" (Some (parseInt v)))
  ∧ (∀ r, response err = Some r → status r = 429%Z →
       headers r !! "retry-after" = None
       ∨ headers r !! "retry-after" = Some "" →
       classify err = RateLimitError "Rate limit exceeded" None)
  ∧ (∀ r d m, response err = Some r → status r ≠ 401%Z → status r ≠ 429%Z →
       data r = Some d → error d = Some (ErrorObject (Some m)) → m ≠ "" →
       classify err = SpotifyAPIError m (status r) (Some d))
  ∧ (∀ r, response err = Some r → status r ≠ 401%Z → status r ≠ 429%Z →
       data r = None
       ∨ (∃ d, data r = Some d
               ∧ (error d = None
                  ∨ (∃ code, error d = Some (ErrorCode code))
                  ∨ error d = Some (ErrorObject None)
                  ∨ error d = Some (ErrorObject (Some "")))) →
       classify err = SpotifyAPIError "Spotify API error" (status r) (data r))
  ∧ (response err = None → request err = true →
       classify err = NetworkError "Network error" err).
Proof.
  unfold classify. split_and!.
  - intros [[r Hr] | Hreq].
    + rewrite Hr. repeat case_match; eauto.
    + destruct (response err); repeat case_match; eauto; congruence.
  - intros r -> ->. reflexivity.
  - intros r v -> -> -> Hv. cbn. destruct v; [done|]. reflexivity.
  - intros r -> -> [-> | ->]; reflexivity.
  - intros r d m -> H401 H429 Hd He Hne.
    destruct (Z.eqb_spec (status r) 401); [done|].
    destruct (Z.eqb_spec (status r) 429); [done|].
    rewrite Hd. unfold api_error_message. rewrite He.
    by rewrite (or_else_truthy _ _ m).
  - intros r -> H401 H429 Hm.
    destruct (Z.eqb_spec (status r) 401); [done|].
    destruct (Z.eqb_spec (status r) 429); [done|].
    rewrite or_else_fallback; [done|]. unfold api_error_message.
    destruct Hm as [-> | (d & -> & [-> | [(code & ->) | [-> | ->]]])];
      auto.
  - intros -> ->. reflexivity.
Qed.

(** The three classifications of the specification's scenario, a remote
    error with a server message, and one whose [error] is a string. *)
Lemma classify_typed_failure_witness :
  classify (api_failure 401 None)
  = AuthenticationError "Invalid or expired token"
  ∧ classify (rate_limited (Some "5"))
    = RateLimitError "Rate limit exceeded" (Some (Int 5))
  ∧ classify (rate_limited None) = RateLimitError "Rate limit exceeded" None
  ∧ classify (api_failure 404 (Some "Not found"))
    = SpotifyAPIError "Not found" 404
        (Some {| error := Some (ErrorObject (Some "Not found"));
                 error_description := None |})
  ∧ classify invalid_grant
    = SpotifyAPIError "Spotify API error" 400
        (Some {| error := Some (ErrorCode "invalid_grant");
                 error_description := Some "Invalid authorization code" |})
  ∧ classify connection_refused
    = NetworkError "Network error" connection_refused
  ∧ ∃ k, failure_kind (classify connection_refused) = Some k.
Proof.
  split_and!.
  - destruct (classify_typed_failure (api_failure 401 None))
      as (_ & H & _). eapply H; reflexivity.
  - destruct (classify_typed_failure (rate_limited (Some "5")))
      as (_ & _ & H & _).
    eapply (H _ "5"); [reflexivity | reflexivity | by vm_compute | discriminate].
  - destruct (classify_typed_failure (rate_limited None))
      as (_ & _ & _ & H & _).
    eapply H; [reflexivity | reflexivity | left; by vm_compute].
  - destruct (classify_typed_failure (api_failure 404 (Some "Not found")))
      as (_ & _ & _ & _ & H & _).
    refine (H {| status := 404; headers := ∅;
                 data := Some {| error := Some (ErrorObject (Some "Not found"));
                                 error_description := None |} |}
              {| error := Some (ErrorObject (Some "Not found"));
                 error_description := None |}
              "Not found" _ _ _ _ _ _);
      [reflexivity | discriminate | discriminate | reflexivity | reflexivity
      | discriminate].
  - destruct (classify_typed_failure invalid_grant)
      as (_ & _ & _ & _ & _ & H & _).
    refine (H {| status := 400; headers := ∅;
                 data := Some {| error := Some (ErrorCode "invalid_grant");
                                 error_description :=
                                   Some "Invalid authorization code" |} |}
              _ _ _ _);
      [reflexivity | discriminate | discriminate |].
    right. eexists. split; [reflexivity|]. right. left. by eexists.
  - destruct (classify_typed_failure connection_refused)
      as (_ & _ & _ & _ & _ & _ & H).
    eapply H; reflexivity.
  - destruct (classify_typed_failure connection_refused) as (H & _).
    eapply H. right. reflexivity.
Defined.

(** ** The session manager *)

(** [error.response?.data?.error_description] read off the rejection. *)
Lemma description_of_Some (e : AxiosError) r d s :
  response e = Some r → data r = Some d → error_description d = Some s →
  description_of e = Some s.
Proof. unfold description_of. by intros -> -> ->. Qed.

Lemma description_of_none (e : AxiosError) :
  response e = None
  ∨ (∃ r, response e = Some r
          ∧ (data r = None
             ∨ ∃ d, data r = Some d
                    ∧ (error_description d = None
                       ∨ error_description d = Some ""))) →
  description_of e = None ∨ description_of e = Some "".
Proof.
  unfold description_of.
  intros [-> | (r & -> & [-> | (d & -> & [-> | ->])])]; auto.
Qed.

Section Session.
Variable config : Config.
Variable server : Server.

(** C7.  [exchangeCodeForToken(code)] posts the authorization-code form.
    When the token endpoint answers with a token body, the body's fields
    plus [expires_at = Date.now() + expires_in * 1000] are stored as the
    snapshot, the snapshot is returned and [isAuthenticated()] is true.  When
    the post is rejected, an [AuthenticationError] is thrown and
    [this.tokens] is unchanged.  Its message is the [error_description] of
    the body of the server's response when there is a non-empty one; it is
    "Token exchange failed" when no response was received, when the
    response has no body, and when the body has no [error_description] or
    an empty one. *)
Theorem exchangeCodeForToken_spec (code : string) (w : World) :
  let form := authorization_code_form config code in
  let reply := accounts server (history w) form in
  (∀ d, outcome reply = Resolved d →
     ∃ snapshot w',
       exchangeCodeForToken config server code w = (Return snapshot, w')
       ∧ tokens w' = Some snapshot
       ∧ isAuthenticated w' = (Return true, w')
       ∧ expires_at snapshot = (now w' + TokenData.expires_in d * 1000)%Z
       ∧ access_token snapshot = TokenData.access_token d
       ∧ refresh_token snapshot = TokenData.refresh_token d
       ∧ token_type snapshot = TokenData.token_type d
       ∧ expires_in snapshot = TokenData.expires_in d
       ∧ scope snapshot = TokenData.scope d
       ∧ now w' = (now w + latency reply)%Z
       ∧ history w' = history w ++ [TokenPost form])
  ∧ (∀ e, outcome reply = Rejected e →
     ∃ msg w',
       exchangeCodeForToken config server code w
       = (Throw (AuthenticationError msg), w')
       ∧ tokens w' = tokens w
       ∧ isAuthenticated w' = (Return (bool_decide (is_Some (tokens w))), w')
       ∧ (∀ r d s, response e = Some r → data r = Some d →
            error_description d = Some s → s ≠ "" → msg = s)
       ∧ (response e = None
          ∨ (∃ r, response e = Some r
                  ∧ (data r = None
                     ∨ ∃ d, data r = Some d
                            ∧ (error_description d = None
                               ∨ error_description d = Some ""))) →
          msg = "Token exchange failed")).
Proof.
  intros form reply. unfold exchangeCodeForToken, try_catch, bind.
  fold (authorization_code_form config code). fold form.
  unfold axios_post_token. fold reply. split.
  - intros d ->. cbn. eexists _, _. split_and!; reflexivity.
  - intros e ->. cbn. eexists _, _. split_and!; try reflexivity.
    + unfold isAuthenticated. cbn. by destruct (tokens w).
    + intros r d s Hr Hd Hs Hne. apply or_else_truthy; [|done].
      by apply (description_of_Some e r d s).
    + intros H. by apply or_else_fallback, description_of_none.
Qed.

(** C8.  Without a stored refresh token (no snapshot, or a snapshot whose
    [refresh_token] is missing or empty) [refreshAccessToken()] throws an
    [AuthenticationError] and leaves the world as it was: nothing is sent
    and the token state is unchanged. *)
Theorem refreshAccessToken_without_refresh_token (w : World) :
  tokens w = None
  ∨ (∃ t, tokens w = Some t
          ∧ (refresh_token t = None ∨ refresh_token t = Some "")) →
  refreshAccessToken config server w
  = (Throw (AuthenticationError "No refresh token available"), w).
Proof.
  unfold refreshAccessToken, stored_refresh_token.
  intros [-> | (t & -> & [-> | ->])]; reflexivity.
Qed.

Lemma stored_refresh_token_Some w t r :
  tokens w = Some t → refresh_token t = Some r → r ≠ "" →
  stored_refresh_token w = Some (t, r).
Proof.
  unfold stored_refresh_token. intros -> -> Hr. by destruct r.
Qed.

(** C9.  A successful [refreshAccessToken()] returns the new access token
    and stores a snapshot that differs from the previous one in
    [access_token] and [expires_at] only ([expires_at] being
    [Date.now() + expires_in * 1000] for the returned [expires_in]):
    [refresh_token], [token_type], [scope] and the stored [expires_in] are
    the previous ones, whatever the response carries, a new refresh token
    included. *)
Theorem refreshAccessToken_frame (w : World) (stored : AuthTokens)
    (r : string) (d : TokenData.t) :
  tokens w = Some stored →
  refresh_token stored = Some r → r ≠ "" →
  outcome (accounts server (history w) (refresh_token_form config r))
  = Resolved d →
  ∃ snapshot w',
    refreshAccessToken config server w
    = (Return (TokenData.access_token d), w')
    ∧ tokens w' = Some snapshot
    ∧ access_token snapshot = TokenData.access_token d
    ∧ expires_at snapshot = (now w' + TokenData.expires_in d * 1000)%Z
    ∧ refresh_token snapshot = refresh_token stored
    ∧ token_type snapshot = token_type stored
    ∧ scope snapshot = scope stored
    ∧ expires_in snapshot = expires_in stored
    ∧ now w'
      = (now w
         + latency (accounts server (history w) (refresh_token_form config r)))%Z
    ∧ history w' = history w ++ [TokenPost (refresh_token_form config r)].
Proof.
  intros Ht Hr Hne Hd. unfold refreshAccessToken.
  rewrite (stored_refresh_token_Some w stored r) by done.
  unfold try_catch, bind, axios_post_token.
  fold (refresh_token_form config r). rewrite Hd. cbn.
  eexists _, _. split_and!; reflexivity.
Qed.

End Session.

(** The scenario of the specification: the code "AUTH_CODE" exchanged
    against a token endpoint answering [token_response] stores a snapshot
    expiring 3600 s after the answer arrived; a rejected exchange leaves
    the session unauthenticated. *)
Lemma exchangeCodeForToken_spec_witness :
  (∃ snapshot w',
     exchangeCodeForToken test_config (token_server (Resolved token_response))
       "AUTH_CODE" fresh_session = (Return snapshot, w')
     ∧ tokens w' = Some snapshot
     ∧ isAuthenticated w' = (Return true, w')
     ∧ expires_at snapshot = (now w' + 3600 * 1000)%Z)
  ∧ (∃ w',
     exchangeCodeForToken test_config (token_server (Rejected invalid_grant))
       "AUTH_CODE" fresh_session
     = (Throw (AuthenticationError "Invalid authorization code"), w')
     ∧ tokens w' = None).
Proof.
  split.
  - destruct (exchangeCodeForToken_spec test_config
                (token_server (Resolved token_response)) "AUTH_CODE"
                fresh_session) as [Hok _].
    destruct (Hok token_response eq_refl)
      as (snapshot & w' & Hrun & Htok & Hauth & Hexp & _).
    exists snapshot, w'. split_and!; assumption.
  - destruct (exchangeCodeForToken_spec test_config
                (token_server (Rejected invalid_grant)) "AUTH_CODE"
                fresh_session) as [_ Hfail].
    destruct (Hfail invalid_grant eq_refl)
      as (msg & w' & Hrun & Htok & _ & Hmsg & _).
    exists w'. split; [|exact Htok].
    rewrite Hrun.
    rewrite (Hmsg {| status := 400; headers := ∅;
                     data := Some {| error := Some (ErrorCode "invalid_grant");
                                     error_description :=
                                       Some "Invalid authorization code" |} |}
               {| error := Some (ErrorCode "invalid_grant");
                  error_description := Some "Invalid authorization code" |}
               "Invalid authorization code");
      [reflexivity | reflexivity | reflexivity | reflexivity | discriminate].
Defined.

Lemma refreshAccessToken_without_refresh_token_witness :
  refreshAccessToken test_config (token_server (Resolved token_response))
    fresh_session
  = (Throw (AuthenticationError "No refresh token available"), fresh_session)
  ∧ refreshAccessToken test_config (token_server (Resolved token_response))
      (session_expiring 1700000000000 None)
    = (Throw (AuthenticationError "No refresh token available"),
       session_expiring 1700000000000 None).
Proof.
  split.
  - apply refreshAccessToken_without_refresh_token. left. reflexivity.
  - apply refreshAccessToken_without_refresh_token. right.
    eexists. split; [reflexivity|]. left. reflexivity.
Defined.

(** A server that rotates the refresh token: the stored one is kept. *)
Lemma refreshAccessToken_frame_witness :
  ∃ snapshot w',
    refreshAccessToken test_config (token_server (Resolved rotated_response))
      (session_expiring 1700000000000 (Some "R")) = (Return "A2", w')
    ∧ tokens w' = Some snapshot
    ∧ access_token snapshot = "A2"
    ∧ expires_at snapshot = (1700000000120 + 1800 * 1000)%Z
    ∧ refresh_token snapshot = Some "R"
    ∧ token_type snapshot = "Bearer"
    ∧ scope snapshot = "x".
Proof.
  destruct (refreshAccessToken_frame test_config
              (token_server (Resolved rotated_response))
              (session_expiring 1700000000000 (Some "R"))
              {| access_token := "A"; refresh_token := Some "R";
                 token_type := "Bearer"; expires_in := 3600;
                 scope := "x"; expires_at := 1700000000000 |}
              "R" rotated_response)
    as (snapshot & w' & Hrun & Htok & Hacc & Hexp & Href & Hty & Hsc & _
        & Hnow & _);
    [reflexivity | reflexivity | discriminate | reflexivity |].
  exists snapshot, w'. split_and!; try assumption.
  rewrite Hexp, Hnow. reflexivity.
Defined.

Section Preflight.
Variable config : Config.
Variable server : Server.

Lemma refresh_calls_snoc h ev :
  refresh_calls (h ++ [ev])
  = (refresh_calls h + if is_refresh_post ev then 1 else 0)%nat.
Proof.
  unfold refresh_calls. rewrite List.filter_app, length_app. cbn.
  by destruct (is_refresh_post ev).
Qed.

Lemma refreshAccessToken_history w t r :
  tokens w = Some t → refresh_token t = Some r → r ≠ "" →
  ∃ o w',
    refreshAccessToken config server w = (o, w')
    ∧ history w' = history w ++ [TokenPost (refresh_token_form config r)]
    ∧ is_Some (tokens w')
    ∧ (∀ d, outcome (accounts server (history w) (refresh_token_form config r))
            = Resolved d → o = Return (TokenData.access_token d)).
Proof.
  intros Ht Hr Hne. unfold refreshAccessToken.
  rewrite (stored_refresh_token_Some w t r) by done.
  unfold try_catch, bind, axios_post_token.
  fold (refresh_token_form config r).
  destruct (outcome _) as [d|e]; cbn.
  - eexists _, _. split_and!; [reflexivity|reflexivity|by eexists|].
    by intros ? [= <-].
  - eexists _, _. split_and!; [reflexivity|reflexivity|by rewrite Ht|done].
Qed.

(** C3.  [ensureValidToken()] throws [AuthenticationError("Not
    authenticated")] and does nothing else when no snapshot is stored.  With
    a snapshot whose expiry is at most [Date.now()] + 5 minutes (bound
    included) it is one call of [refreshAccessToken()] followed by a normal
    return: with a stored refresh token exactly one refresh grant is posted,
    and the method returns when that grant is answered.  With an expiry
    later than [Date.now()] + 5 minutes it returns at once: nothing is sent
    and nothing changes. *)
Theorem ensureValidToken_spec (w : World) :
  (tokens w = None →
     ensureValidToken config server w
     = (Throw (AuthenticationError "Not authenticated"), w))
  ∧ (∀ t, tokens w = Some t →
       (expires_at t ≤ now w + 5 * 60 * 1000)%Z →
       ensureValidToken config server w
       = (refreshAccessToken config server ;;; ret tt) w
       ∧ ∀ r, refresh_token t = Some r → r ≠ "" →
           ∃ o w',
             ensureValidToken config server w = (o, w')
             ∧ history w'
               = history w ++ [TokenPost (refresh_token_form config r)]
             ∧ refresh_calls (history w') = S (refresh_calls (history w))
             ∧ is_Some (tokens w')
             ∧ ((∃ d, outcome (accounts server (history w)
                                 (refresh_token_form config r)) = Resolved d)
                → o = Return tt))
  ∧ (∀ t, tokens w = Some t →
       (expires_at t > now w + 5 * 60 * 1000)%Z →
       ensureValidToken config server w = (Return tt, w)).
Proof.
  unfold ensureValidToken. split_and!.
  - intros ->. reflexivity.
  - intros t Ht Hle. rewrite Ht.
    destruct (Z.leb_spec (expires_at t) (now w + 5 * 60 * 1000)); [|lia].
    split; [reflexivity|]. intros r Hr Hne.
    destruct (refreshAccessToken_history w t r)
      as (o & w' & Hrun & Hh & Htok & Hres); [done..|].
    unfold bind. rewrite Hrun.
    exists (match o with
            | Return _ => Return tt
            | Throw e => Throw e
            | OutOfFuel => OutOfFuel
            end), w'.
    split_and!.
    + by destruct o.
    + done.
    + rewrite Hh, refresh_calls_snoc. cbn.
      rewrite bool_decide_eq_true_2; [lia|]. unfold refresh_token_form.
      apply list_elem_of_here.
    + done.
    + intros [d Hd]. by rewrite (Hres d Hd).
  - intros t -> Hgt.
    destruct (Z.leb_spec (expires_at t) (now w + 5 * 60 * 1000)); [lia|].
    done.
Qed.

End Preflight.

(** The boundary: an expiry exactly 5 minutes ahead is refreshed, one
    millisecond later it is not. *)
Lemma ensureValidToken_spec_witness :
  ensureValidToken test_config (token_server (Resolved token_response))
    fresh_session
  = (Throw (AuthenticationError "Not authenticated"), fresh_session)
  ∧ (∃ w',
       ensureValidToken test_config (token_server (Resolved token_response))
         (session_expiring 1700000300000 (Some "R")) = (Return tt, w')
       ∧ refresh_calls (history w') = 1%nat)
  ∧ ensureValidToken test_config (token_server (Resolved token_response))
      (session_expiring 1700000300001 (Some "R"))
    = (Return tt, session_expiring 1700000300001 (Some "R")).
Proof.
  split_and!.
  - apply ensureValidToken_spec. reflexivity.
  - destruct (ensureValidToken_spec test_config
                (token_server (Resolved token_response))
                (session_expiring 1700000300000 (Some "R")))
      as (_ & Hrefresh & _).
    destruct (Hrefresh _ eq_refl) as [_ Hone]; [by vm_compute|].
    destruct (Hone "R" eq_refl) as (o & w' & Hrun & _ & Hcalls & _ & Hret);
      [discriminate|].
    exists w'. rewrite Hrun, Hcalls, Hret; [done|].
    by exists token_response.
  - eapply ensureValidToken_spec; [reflexivity | by vm_compute].
Defined.

(** ** The authorization URL *)

Lemma form_encode_state : form_encode "state" = "state".
Proof. reflexivity. Qed.

Lemma string_app_assoc (a b c : string) :
  (a +:+ b) +:+ c = a +:+ (b +:+ c).
Proof.
  induction a as [|x a IH]; [reflexivity|].
  change (String x ((a +:+ b) +:+ c) = String x (a +:+ (b +:+ c))).
  by f_equal.
Qed.

Lemma concat_snoc (sep : string) (l : list string) (x : string) :
  l ≠ [] → String.concat sep (l ++ [x]) = String.concat sep l +:+ sep +:+ x.
Proof.
  induction l as [|a [|b l] IH]; intros Hne; [done| |].
  - cbn. done.
  - change (String.concat sep ((a :: b :: l) ++ [x]))
      with (a +:+ sep +:+ String.concat sep ((b :: l) ++ [x])).
    rewrite IH by done.
    change (String.concat sep (a :: b :: l))
      with (a +:+ sep +:+ String.concat sep (b :: l)).
    by rewrite !string_app_assoc.
Qed.

(** C10.  [generateAuthUrl(state)] returns the same URL in every state of
    the client and changes nothing.  The URL is the authorization endpoint
    followed by the serialized parameters, and these hold a [state] entry
    exactly when the argument is a non-empty string, in which case it comes
    last; for the empty string the URL is the one of an absent argument. *)
Theorem generateAuthUrl_state (config : Config) (state : option string)
    (w w0 : World) :
  ∃ u,
    generateAuthUrl config state w = (Return u, w)
    ∧ generateAuthUrl config state w0 = (Return u, w0)
    ∧ u = "https://accounts.spotify.com/authorize?"
          +:+ URLSearchParams_toString (authUrl_params config state)
    ∧ ("state" ∈ (authUrl_params config state).*1
       ↔ ∃ s, state = Some s ∧ s ≠ "")
    ∧ (∀ s, state = Some s → s ≠ "" →
         authUrl_params config state
         = authUrl_params config None ++ [("state", s)]
         ∧ generateAuthUrl config None w
           = (Return ("https://accounts.spotify.com/authorize?"
                      +:+ URLSearchParams_toString
                            (authUrl_params config None)), w)
         ∧ u = ("https://accounts.spotify.com/authorize?"
                +:+ URLSearchParams_toString (authUrl_params config None))
               +:+ "&state=" +:+ form_encode s)
    ∧ (state = Some "" ∨ state = None →
         generateAuthUrl config state = generateAuthUrl config None
         ∧ generateAuthUrl config state = generateAuthUrl config (Some "")).
Proof.
  eexists. split_and!; [reflexivity..| | |].
  - unfold authUrl_params. rewrite fmap_app, elem_of_app. split.
    + intros [Hin | Hin].
      * cbn in Hin.
        repeat (apply elem_of_cons in Hin as [Hin | Hin]; [discriminate|]).
        by apply elem_of_nil in Hin.
      * destruct state as [s|]; [|by apply elem_of_nil in Hin].
        destruct s; [by apply elem_of_nil in Hin|]. eauto.
    + intros (s & -> & Hne). right. destruct s; [done|]. cbn.
      apply elem_of_cons. by left.
  - intros s -> Hne. split_and!.
    + unfold authUrl_params. destruct s; [done|]. cbn. done.
    + reflexivity.
    + unfold authUrl_params at 1. destruct s as [|c s]; [done|].
      cbn [truthy]. unfold URLSearchParams_toString, join.
      rewrite map_app. cbn [map]. rewrite concat_snoc by done.
      cbn [fst snd]. rewrite form_encode_state.
      unfold authUrl_params. rewrite app_nil_r.
      rewrite !string_app_assoc. reflexivity.
  - intros [-> | ->]; done.
Qed.

Lemma generateAuthUrl_state_witness :
  generateAuthUrl test_config (Some "x y") fresh_session
  = (Return
       ("https://accounts.spotify.com/authorize?client_id=client-id"
        +:+ "&response_type=code"
        +:+ "&redirect_uri=http%3A%2F%2Flocalhost%3A3000%2Fcallback"
        +:+ "&scope=user-library-read+playlist-modify-public"
        +:+ "+playlist-modify-private"
        +:+ "&state=x+y"),
     fresh_session)
  ∧ generateAuthUrl test_config (Some "") = generateAuthUrl test_config None.
Proof.
  destruct (generateAuthUrl_state test_config (Some "x y") fresh_session
              fresh_session) as (u & Hrun & _ & _ & _ & Hstate & _).
  destruct (Hstate "x y" eq_refl) as (_ & _ & Hu); [discriminate|].
  split.
  - rewrite Hrun, Hu. reflexivity.
  - destruct (generateAuthUrl_state test_config (Some "") fresh_session
                fresh_session) as (_ & _ & _ & _ & _ & _ & Hempty).
    apply Hempty. by left.
Defined.

(** ** Chunking *)

Lemma ceil_div_0 (b : nat) : ceil_div 0 b = 0%nat.
Proof.
  unfold ceil_div. destruct b as [|b]; [done|].
  apply Nat.div_small. lia.
Qed.

Lemma ceil_div_step (a b : nat) :
  (0 < b)%nat → (0 < a)%nat → ceil_div a b = S (ceil_div (a - b) b).
Proof.
  intros Hb Ha. unfold ceil_div.
  destruct (decide (a ≤ b)%nat) as [Hle|Hgt].
  - replace (a - b + b - 1)%nat with (b - 1)%nat by lia.
    rewrite (Nat.div_small (b - 1) b) by lia.
    symmetry. apply (Nat.div_unique _ _ _ (a - 1)); lia.
  - replace (a + b - 1)%nat with ((a - b + b - 1) + 1 * b)%nat by lia.
    rewrite Nat.div_add by lia. lia.
Qed.

Lemma batch_loop_spec {A} (size : nat) (l : list A) :
  (0 < size)%nat →
  ∀ fuel i batches,
    (length l - i ≤ fuel)%nat →
    ∃ cs,
      batch_loop size l fuel i batches = Some (batches ++ cs)
      ∧ concat cs = drop i l
      ∧ Forall (λ c, (1 ≤ length c ≤ size)%nat) cs
      ∧ length cs = ceil_div (length l - i) size.
Proof.
  intros Hsize. induction fuel as [|fuel IH]; intros i batches Hfuel.
  - exists []. cbn [batch_loop].
    destruct (Nat.ltb_spec i (length l)); [lia|].
    rewrite app_nil_r, drop_ge by lia.
    replace (length l - i)%nat with 0%nat by lia.
    rewrite ceil_div_0. split_and!; [done | done | constructor | done].
  - cbn [batch_loop]. destruct (Nat.ltb_spec i (length l)) as [Hlt|Hge].
    + destruct (IH (i + size)%nat (batches ++ [slice l i (i + size)]))
        as (cs & Hrun & Hcat & Hall & Hlen); [lia|].
      exists (slice l i (i + size) :: cs).
      unfold slice in *. replace (i + size - i)%nat with size in * by lia.
      split_and!.
      * rewrite Hrun, <- app_assoc. done.
      * cbn. rewrite Hcat, <- (drop_drop l size i). apply take_drop.
      * constructor; [|done]. rewrite length_take, length_drop. lia.
      * cbn. rewrite Hlen.
        rewrite (ceil_div_step (length l - i) size) by lia.
        do 2 f_equal. lia.
    + exists []. rewrite app_nil_r, drop_ge by lia.
      replace (length l - i)%nat with 0%nat by lia.
      rewrite ceil_div_0. split_and!; [done | done | constructor | done].
Qed.

Lemma make_batches_spec {A} (size : nat) (l : list A) :
  (0 < size)%nat →
  ∃ cs,
    make_batches size l = Some cs
    ∧ concat cs = l
    ∧ Forall (λ c, (1 ≤ length c ≤ size)%nat) cs
    ∧ length cs = ceil_div (length l) size.
Proof.
  intros Hsize. unfold make_batches.
  destruct (batch_loop_spec size l Hsize (length l) 0 [])
    as (cs & Hrun & Hcat & Hall & Hlen); [lia|].
  exists cs. rewrite Nat.sub_0_r in Hlen. done.
Qed.

(** ** The authenticated transport under the retrier *)

Lemma retry_first_success {T} (operation : M T) (options : RetryOptions)
    (w : World) (v : T) (w' : World) :
  operation w = (Return v, w') →
  retryWithBackoff operation options w = (Return v, w').
Proof.
  intros Hop. unfold retryWithBackoff. cbn [retry_loop].
  destruct (Nat.leb_spec 0 (p_maxRetries (policy_of options))); [|lia].
  by rewrite Hop.
Qed.

Lemma api_calls_snoc_call h req :
  api_calls (h ++ [ApiCall req]) = api_calls h ++ [req].
Proof. unfold api_calls. by rewrite omap_app. Qed.

Lemma api_calls_snoc_timeout h ms :
  api_calls (h ++ [Timeout ms]) = api_calls h.
Proof. unfold api_calls. rewrite omap_app. cbn. by rewrite app_nil_r. Qed.

Section Transport.
Variable server : Server.

Lemma httpClient_get_send path :
  httpClient_get server path = send server (get_request path).
Proof. reflexivity. Qed.

Lemma send_run req w :
  ∃ o,
    send server req w
    = (o, {| tokens := tokens w;
             now := (now w + latency (api server (history w)
                                        (with_bearer (tokens w) req)))%Z;
             history := history w ++ [ApiCall (with_bearer (tokens w) req)] |})
    ∧ o ≠ OutOfFuel
    ∧ (∀ d, outcome (api server (history w) (with_bearer (tokens w) req))
            = Resolved d → o = Return d)
    ∧ (∀ e, outcome (api server (history w) (with_bearer (tokens w) req))
            = Rejected e → o = Throw (classify e)).
Proof.
  unfold send, bind, request_interceptor.
  assert (Hreq : (match tokens w with
                  | Some t =>
                      (Return {| method := method req; url := url req;
                                 authorization :=
                                   Some ("Bearer " +:+ access_token t);
                                 uris := uris req;
                                 playlist := playlist req |}, w)
                  | None => (Return req, w)
                  end) = (Return (with_bearer (tokens w) req), w))
    by (unfold with_bearer; destruct (tokens w); reflexivity).
  rewrite Hreq. unfold dispatch.
  destruct (outcome (api server (history w) (with_bearer (tokens w) req)))
    as [d|e]; eexists;
    (split_and!; [reflexivity | done | congruence | congruence]).
Qed.

Lemma retry_run_send req p i w r n ds :
  retry_run (send server req) p i w r n ds →
  tokens r.2 = tokens w
  ∧ api_calls (history r.2)
    = api_calls (history w) ++ replicate n (with_bearer (tokens w) req)
  ∧ r.1 ≠ OutOfFuel.
Proof.
  induction 1 as [i w v w' Hop | w e w' Hop | i w e w' r n ds Hi Hop Hrun IH
                 | i w w' Hop];
    destruct (send_run req w) as (o & Hrun' & Hfuel & _);
    rewrite Hrun' in Hop; injection Hop as -> <-; cbn.
  - by rewrite api_calls_snoc_call.
  - by rewrite api_calls_snoc_call.
  - destruct IH as (Htok & Hcalls & Hne). cbn in *.
    rewrite Htok, Hcalls, api_calls_snoc_timeout, api_calls_snoc_call.
    by rewrite <- app_assoc.
  - done.
Qed.

(** One retried request: between 1 and [maxRetries + 1] copies of the same
    request go out, and the stored snapshot is not touched. *)
Lemma retry_send_calls req options w o w' :
  retryWithBackoff (send server req) options w = (o, w') →
  tokens w' = tokens w
  ∧ o ≠ OutOfFuel
  ∧ ∃ n, (1 ≤ n ≤ p_maxRetries (policy_of options) + 1)%nat
       ∧ api_calls (history w')
         = api_calls (history w) ++ replicate n (with_bearer (tokens w) req).
Proof.
  intros Hrun. unfold retryWithBackoff in Hrun.
  destruct (retry_loop_run (send server req) (policy_of options)
              (S (p_maxRetries (policy_of options))) 0 None w)
    as (n & ds & Hr & H1 & Hn & _); [lia | lia |].
  rewrite Hrun in Hr. apply retry_run_send in Hr as (Htok & Hcalls & Hne).
  split_and!; [done | done |]. exists n. split; [lia | done].
Qed.

Lemma calls_in_order_send {A} (req : A → ApiRequest) options xs w rs w' :
  calls_in_order (λ x, retryWithBackoff (send server (req x)) options)
    xs w rs w' →
  tokens w' = tokens w
  ∧ length rs = length xs
  ∧ ∃ ns,
      length ns = length xs
      ∧ Forall (λ n, (1 ≤ n ≤ p_maxRetries (policy_of options) + 1)%nat) ns
      ∧ api_calls (history w')
        = api_calls (history w)
          ++ concat (zip_with replicate ns
                       (map (λ x, with_bearer (tokens w) (req x)) xs)).
Proof.
  induction 1 as [w | x xs w r w1 rs w2 Hx Hrest IH].
  - split_and!; [done | done |]. exists []. by rewrite app_nil_r.
  - apply retry_send_calls in Hx as (Htok1 & _ & n & Hn & Hcalls1).
    destruct IH as (Htok2 & Hlen & ns & Hns & Hall & Hcalls2).
    split_and!; [congruence | cbn; lia |].
    exists (n :: ns). split_and!; [cbn; lia | by constructor |].
    rewrite Hcalls2, Hcalls1, Htok1. cbn. by rewrite <- app_assoc.
Qed.

End Transport.

(** A retried request that ends with a failure was attempted
    [maxRetries + 1] times. *)
Lemma retry_send_throw_calls server req options w e w' :
  retryWithBackoff (send server req) options w = (Throw e, w') →
  tokens w' = tokens w
  ∧ api_calls (history w')
    = api_calls (history w)
      ++ replicate (p_maxRetries (policy_of options) + 1)
           (with_bearer (tokens w) req).
Proof.
  intros Hrun. unfold retryWithBackoff in Hrun.
  destruct (retry_loop_run (send server req) (policy_of options)
              (S (p_maxRetries (policy_of options))) 0 None w)
    as (n & ds & Hr & _); [lia | lia |].
  rewrite Hrun in Hr.
  pose proof (retry_run_throw_exhausted _ _ _ _ _ _ _ _ Hr) as Hn.
  apply retry_run_send in Hr as (Htok & Hcalls & _). cbn in Htok, Hcalls.
  split; [done|]. rewrite Hcalls. f_equal. f_equal. lia.
Qed.

(** ** Batched operations *)

Lemma for_of_each {A R} (f : A → M R) (cs : list A) :
  (∀ c w, (f c w).1 ≠ OutOfFuel) →
  ∀ w o w',
    for_of cs (λ c _, f c ;;; ret tt) tt w = (o, w') →
    (o = Return tt ∧ ∃ rs, calls_in_order f cs w rs w')
    ∨ (∃ before c rest rs wk e,
         cs = before ++ c :: rest
         ∧ calls_in_order f before w rs wk
         ∧ f c wk = (Throw e, w')
         ∧ o = Throw e).
Proof.
  intros Hfuel. induction cs as [|c cs IH]; intros w o w' Hrun.
  - injection Hrun as <- <-. left. split; [done|]. exists []. constructor.
  - cbn [for_of] in Hrun. unfold bind at 1 2 in Hrun.
    destruct (f c w) as [[r|e|] w1] eqn:Hc.
    + cbn in Hrun.
      destruct (IH _ _ _ Hrun)
        as [[-> [rs Hrs]] | (before & c' & rest & rs & wk & e & -> & Hd & Hc' & ->)].
      * left. split; [done|]. exists (r :: rs). by econstructor.
      * right. exists (c :: before), c', rest, (r :: rs), wk, e.
        split_and!; [done | by econstructor | done | done].
    + injection Hrun as <- <-. right.
      exists [], c, cs, [], w, e. split_and!; [done | constructor | done | done].
    + specialize (Hfuel c w). by rewrite Hc in Hfuel.
Qed.

Section Batches.
Variable config : Config.
Variable server : Server.

Lemma retry_send_total req options w :
  (retryWithBackoff (send server req) options w).1 ≠ OutOfFuel.
Proof.
  destruct (retryWithBackoff (send server req) options w) as [o w'] eqn:Hrun.
  by apply retry_send_calls in Hrun as (_ & Hne & _).
Qed.

(** C6.  [addTracksToPlaylist(playlistId, trackUris)] cuts the URIs, in
    order, into [ceil(L / 100)] chunks of at most 100; after the pre-flight
    check it runs one retried POST per chunk, in index order, each starting
    where the previous one ended.  It returns only when every chunk's
    retried request returned.  When the retried request of a chunk fails,
    the method ends right there with that failure: the requests on the wire
    are those of the chunks up to the failing one (each between 1 and 4
    times), none of a later chunk. *)
Theorem addTracksToPlaylist_spec (playlistId : string)
    (trackUris : list string) (w : World) :
  ∃ chunks,
    make_batches 100 trackUris = Some chunks
    ∧ length chunks = ceil_div (length trackUris) 100
    ∧ Forall (λ c, (1 ≤ length c ≤ 100)%nat) chunks
    ∧ concat chunks = trackUris
    ∧ ∀ w1, ensureValidToken config server w = (Return tt, w1) →
      let path := "/playlists/" +:+ playlistId +:+ "/tracks" in
      let chunk_request := λ c : list string,
        retryWithBackoff (httpClient_post server path c) no_options in
      let wire := λ c : list string,
        with_bearer (tokens w1) (post_request path c) in
      ∃ o w' ns,
        addTracksToPlaylist config server playlistId trackUris w = (o, w')
        ∧ api_calls (history w')
          = api_calls (history w1)
            ++ concat (zip_with replicate ns (map wire chunks))
        ∧ Forall (λ n, (1 ≤ n ≤ 4)%nat) ns
        ∧ ((o = Return tt
            ∧ length ns = length chunks
            ∧ ∃ rs, calls_in_order chunk_request chunks w1 rs w')
           ∨ (∃ before c rest rs wk e,
                chunks = before ++ c :: rest
                ∧ calls_in_order chunk_request before w1 rs wk
                ∧ chunk_request c wk = (Throw e, w')
                ∧ o = Throw e
                ∧ length ns = S (length before))).
Proof.
  destruct (make_batches_spec 100 trackUris) as (chunks & Hb & Hcat & Hall & Hlen);
    [lia|].
  exists chunks. split_and!; [done..|].
  intros w1 Hens path chunk_request wire.
  unfold addTracksToPlaylist, bind at 1. rewrite Hens, Hb. fold path.
  destruct (for_of chunks _ tt w1) as [o w'] eqn:Hrun.
  apply (for_of_each chunk_request) in Hrun
    as [[-> [rs Hrs]] | (before & c & rest & rs & wk & e & -> & Hd & Hc & ->)];
    [| |intros c w0; apply retry_send_total].
  - destruct (calls_in_order_send server (post_request path) no_options
                chunks w1 rs w' Hrs) as (_ & _ & ns & Hns & Hrange & Hcalls).
    exists (Return tt), w', ns. split_and!; [done | done | done |].
    left. split_and!; [done | done | by exists rs].
  - destruct (calls_in_order_send server (post_request path) no_options
                before w1 rs wk Hd) as (Htok & _ & ns & Hns & Hrange & Hcalls).
    pose proof Hc as Hc'.
    apply retry_send_calls in Hc' as (_ & _ & n & Hn & Hcalls').
    exists (Throw e), w', (ns ++ [n]). split_and!.
    + done.
    + rewrite Hcalls', Hcalls, Htok, map_app.
      rewrite zip_with_app by (by rewrite length_map).
      rewrite concat_app. cbn. by rewrite app_nil_r, <- app_assoc.
    + apply Forall_app. split; [done|]. by constructor.
    + right. exists before, c, rest, rs, wk, e.
      split_and!; [done..|]. rewrite length_app. cbn. lia.
Qed.

End Batches.

Lemma for_of_collect (f : list string → M ApiData) (cs : list (list string)) :
  (∀ c w, (f c w).1 ≠ OutOfFuel) →
  ∀ acc w o w',
    for_of cs (collect_tracks f) acc w = (o, w') →
    (∃ tss, calls_in_order f cs w (map DTracks tss) w'
            ∧ o = Return (acc ++ concat tss))
    ∨ (∃ before c rest tss wk,
         cs = before ++ c :: rest
         ∧ calls_in_order f before w (map DTracks tss) wk
         ∧ ((∃ e, f c wk = (Throw e, w') ∧ o = Throw e)
            ∨ (∃ d, f c wk = (Return d, w') ∧ (∀ ts, d ≠ DTracks ts)
                    ∧ o = Throw TypeError))).
Proof.
  intros Hfuel. induction cs as [|c cs IH]; intros acc w o w' Hrun.
  - injection Hrun as <- <-. left. exists []. split; [constructor|].
    by rewrite app_nil_r.
  - cbn [for_of] in Hrun. unfold bind at 1, collect_tracks at 1 in Hrun.
    unfold bind at 1 in Hrun.
    destruct (f c w) as [[d|e|] w1] eqn:Hc.
    + destruct d as [p|ts|raw|i].
      * injection Hrun as <- <-. right. exists [], c, cs, [], w.
        split_and!; [done | constructor |]. right. exists (DPage p).
        split_and!; [done | done | done].
      * cbn in Hrun.
        destruct (IH _ _ _ _ Hrun)
          as [(tss & Hrs & ->)
             | (before & c' & rest & tss & wk & -> & Hd & Hc')].
        -- left. exists (ts :: tss). split; [by econstructor|].
           cbn. by rewrite app_assoc.
        -- right. exists (c :: before), c', rest, (ts :: tss), wk.
           split_and!; [done | by econstructor | done].
      * injection Hrun as <- <-. right. exists [], c, cs, [], w.
        split_and!; [done | constructor |]. right. exists (DOther raw).
        split_and!; [done | done | done].
      * injection Hrun as <- <-. right. exists [], c, cs, [], w.
        split_and!; [done | constructor |]. right. exists (DProfile i).
        split_and!; [done | done | done].
    + injection Hrun as <- <-. right. exists [], c, cs, [], w.
      split_and!; [done | constructor |]. left. by exists e.
    + specialize (Hfuel c w). by rewrite Hc in Hfuel.
Qed.

Lemma getTrackDetails_unfold config server trackIds w chunks w1 :
  make_batches 50 trackIds = Some chunks →
  ensureValidToken config server w = (Return tt, w1) →
  getTrackDetails config server trackIds w
  = for_of chunks
      (collect_tracks (λ batch,
         retryWithBackoff
           (httpClient_get server ("/tracks?ids=" +:+ join "," batch))
           no_options)) [] w1.
Proof.
  intros Hb Hens. unfold getTrackDetails, bind at 1. by rewrite Hens, Hb.
Qed.



Section Details.
Variable config : Config.
Variable server : Server.


End Details.

(** ** Pagination *)

Lemma substring_all (s : string) :
  String.substring 0 (String.length s) s = s.
Proof. induction s as [|c s IH]; [done|]. cbn. by rewrite IH. Qed.

Lemma remove_first_origin (path : string) :
  remove_first "https://api.spotify.com/v1"
    ("https://api.spotify.com/v1" +:+ path) = path.
Proof.
  unfold String.append. cbn.
  replace (String.prefix "" path) with true by (by destruct path).
  by rewrite Nat.sub_0_r, substring_all.
Qed.

Section Pagination.
Variable config : Config.
Variable server : Server.

Lemma likedSongs_loop_pages u w pages w' :
  pages_in_order
    (λ u, retryWithBackoff (httpClient_get server u) no_options)
    u w pages w' →
  truthy u = true →
  ∀ fuel acc,
    (length pages ≤ fuel)%nat →
    likedSongs_loop server fuel (Some u) acc w
    = (Return (acc ++ tracks_of pages), w').
Proof.
  induction 1 as [u w p w' Hfetch Hnext
                 | u w p w1 u' ps w' Hfetch Hnext Hu' Hrest IH];
    intros Hu fuel acc Hfuel;
    (destruct fuel as [|fuel]; [cbn in Hfuel; lia|]);
    cbn [likedSongs_loop]; rewrite Hu; unfold bind at 1; rewrite Hfetch.
  - rewrite Hnext. unfold tracks_of. cbn. rewrite app_nil_r.
    by destruct fuel.
  - change (match next p with
            | Some n =>
                if truthy n
                then Some (remove_first "https://api.spotify.com/v1" n)
                else None
            | None => None
            end) with (next_url p).
    rewrite Hnext, IH by (cbn in Hfuel; done || lia).
    unfold tracks_of. cbn. by rewrite app_assoc.
Qed.

Lemma pages_in_order_first_attempt u w pages w' :
  pages_in_order (httpClient_get server) u w pages w' →
  pages_in_order
    (λ u, retryWithBackoff (httpClient_get server u) no_options)
    u w pages w'
  ∧ tokens w' = tokens w
  ∧ api_calls (history w')
    = api_calls (history w)
      ++ map (λ u, with_bearer (tokens w) (get_request u)) (page_urls u pages)
  ∧ length (page_urls u pages) = length pages.
Proof.
  induction 1 as [u w p w' Hfetch Hnext
                 | u w p w1 u' ps w' Hfetch Hnext Hu' Hrest IH].
  - split_and!.
    + apply pages_last; [|done]. by apply retry_first_success.
    + destruct (send_run server (get_request u) w) as (o & Hrun & _).
      rewrite httpClient_get_send, Hrun in Hfetch. by injection Hfetch as _ <-.
    + destruct (send_run server (get_request u) w) as (o & Hrun & _).
      rewrite httpClient_get_send, Hrun in Hfetch. injection Hfetch as _ <-.
      cbn. unfold next_url. rewrite Hnext. cbn.
      by rewrite api_calls_snoc_call.
    + cbn. unfold next_url. by rewrite Hnext.
  - destruct IH as (Hretried & Htok & Hcalls & Hlen).
    destruct (send_run server (get_request u) w) as (o & Hrun & _).
    pose proof Hfetch as Hfetch'.
    rewrite httpClient_get_send, Hrun in Hfetch'. injection Hfetch' as _ <-.
    cbn in Htok, Hcalls. split_and!.
    + eapply pages_more; [by apply retry_first_success | done..].
    + done.
    + cbn [page_urls]. rewrite Hnext, Hcalls, api_calls_snoc_call.
      cbn. by rewrite <- app_assoc.
    + cbn [page_urls]. rewrite Hnext. cbn. by rewrite Hlen.
Qed.

Lemma pages_in_order_retried_calls u w pages w' :
  pages_in_order
    (λ u, retryWithBackoff (httpClient_get server u) no_options)
    u w pages w' →
  tokens w' = tokens w
  ∧ length (page_urls u pages) = length pages
  ∧ ∃ ns,
      length ns = length pages
      ∧ Forall (λ n, (1 ≤ n ≤ 4)%nat) ns
      ∧ api_calls (history w')
        = api_calls (history w)
          ++ concat (zip_with replicate ns
                       (map (λ u, with_bearer (tokens w) (get_request u))
                          (page_urls u pages))).
Proof.
  induction 1 as [u w p w' Hfetch Hnext
                 | u w p w1 u' ps w' Hfetch Hnext Hu' Hrest IH].
  - rewrite httpClient_get_send in Hfetch.
    apply retry_send_calls in Hfetch as (Htok & _ & n & Hn & Hcalls).
    assert (Hurls : page_urls u [p] = [u])
      by (cbn [page_urls]; unfold next_url; by rewrite Hnext).
    rewrite Hurls. split_and!; [done | done |].
    exists [n]. split_and!; [done | by constructor |].
    rewrite Hcalls. cbn. by rewrite app_nil_r.
  - rewrite httpClient_get_send in Hfetch.
    apply retry_send_calls in Hfetch as (Htok & _ & n & Hn & Hcalls).
    destruct IH as (Htok' & Hlen & ns & Hns & Hrange & Hcalls').
    split_and!; [congruence | cbn [page_urls]; rewrite Hnext; cbn; lia |].
    exists (n :: ns). split_and!; [cbn; lia | by constructor |].
    cbn [page_urls]. rewrite Hnext, Hcalls', Hcalls, Htok. cbn.
    by rewrite <- app_assoc.
Qed.

(** C4 (amended).  After the pre-flight check [getLikedSongs()] asks for
    "/me/tracks?limit=50" and then for the [next] cursor of each page
    without the API origin, one retried request per page (between 1 and 4
    attempts each), until a page has [next: null]; it returns the tracks of
    the pages, page after page and in the order of each page.  When every
    page is delivered at the first attempt, exactly one request per page
    goes out; for two pages of 2 and 1 items that is 3 tracks and 2
    requests. *)
Theorem getLikedSongs_spec (fuel : nat) (w w1 : World) (pages : list Page)
    (w' : World) :
  ensureValidToken config server w = (Return tt, w1) →
  (length pages ≤ fuel)%nat →
  let wire := λ u, with_bearer (tokens w1) (get_request u) in
  (pages_in_order
     (λ u, retryWithBackoff (httpClient_get server u) no_options)
     "/me/tracks?limit=50" w1 pages w' →
   getLikedSongs config server fuel w = (Return (tracks_of pages), w')
   ∧ ∃ ns,
       length ns = length pages
       ∧ Forall (λ n, (1 ≤ n ≤ 4)%nat) ns
       ∧ api_calls (history w')
         = api_calls (history w1)
           ++ concat (zip_with replicate ns
                        (map wire (page_urls "/me/tracks?limit=50" pages))))
  ∧ (pages_in_order (httpClient_get server) "/me/tracks?limit=50" w1 pages w' →
     getLikedSongs config server fuel w = (Return (tracks_of pages), w')
     ∧ api_calls (history w')
       = api_calls (history w1)
         ++ map wire (page_urls "/me/tracks?limit=50" pages)
     ∧ length (page_urls "/me/tracks?limit=50" pages) = length pages
     ∧ ∀ p1 p2, pages = [p1; p2] →
         length (items p1) = 2%nat → length (items p2) = 1%nat →
         length (tracks_of pages) = 3%nat
         ∧ length (map wire (page_urls "/me/tracks?limit=50" pages)) = 2%nat)
  ∧ (∀ path,
       next_url {| items := []; next := Some ("https://api.spotify.com/v1"
                                              +:+ String "/" path) |}
       = Some (String "/" path)).
Proof.
  intros Hens Hfuel wire.
  assert (Hretried :
    pages_in_order
      (λ u, retryWithBackoff (httpClient_get server u) no_options)
      "/me/tracks?limit=50" w1 pages w' →
    getLikedSongs config server fuel w = (Return (tracks_of pages), w')).
  { intros Hpages. unfold getLikedSongs, bind at 1. rewrite Hens.
    by rewrite (likedSongs_loop_pages _ _ _ _ Hpages eq_refl fuel []). }
  split_and!.
  - intros Hpages. split; [by apply Hretried|].
    by apply pages_in_order_retried_calls in Hpages as (_ & _ & Hns).
  - intros Hpages.
    apply pages_in_order_first_attempt in Hpages
      as (Hpages & _ & Hcalls & Hlen).
    split_and!; [by apply Hretried | done | done |].
    intros p1 p2 -> H1 H2. split.
    + unfold tracks_of. cbn [map concat].
      by rewrite !length_app, !length_map, H1, H2.
    + by rewrite length_map, Hlen.
  - intros path. unfold next_url. cbn [next truthy].
    by rewrite remove_first_origin.
Qed.

End Pagination.

(** The two-page scenario: 3 tracks in page order, 2 requests. *)
Lemma getLikedSongs_spec_witness :
  ∃ w',
    getLikedSongs test_config two_page_server 2 valid_session
    = (Return (tracks_of [page1; page2]), w')
    ∧ tracks_of [page1; page2]
      = [track (saved "1"); track (saved "2"); track (saved "3")]
    ∧ length (api_calls (history w')) = 2%nat.
Proof.
  pose (w1 := (httpClient_get two_page_server "/me/tracks?limit=50"
                 valid_session).2).
  pose (w2 := (httpClient_get two_page_server "/me/tracks?offset=2&limit=50"
                 w1).2).
  exists w2.
  assert (Hpages :
    pages_in_order (httpClient_get two_page_server) "/me/tracks?limit=50"
      valid_session [page1; page2] w2).
  { apply (pages_more _ _ _ page1 w1 "/me/tracks?offset=2&limit=50");
      [by vm_compute | by vm_compute | done |].
    apply pages_last; [by vm_compute | done]. }
  destruct (getLikedSongs_spec test_config two_page_server 2 valid_session
              valid_session [page1; page2] w2 eq_refl (le_n 2))
    as (_ & Hdirect & _).
  destruct (Hdirect Hpages) as (Hrun & Hcalls & Hlen & _).
  split_and!; [exact Hrun | reflexivity |].
  rewrite Hcalls, length_app, length_map, Hlen. reflexivity.
Defined.

(** ** Scenarios of the batched operations *)


(** 250 URIs against a server that fails from its second request on: three
    chunks, the second one fails, the third is never sent. *)
Lemma addTracksToPlaylist_spec_witness :
  ∃ chunks o w' ns,
    make_batches 100 (replicate 250 "spotify:track:x") = Some chunks
    ∧ length chunks = 3%nat
    ∧ addTracksToPlaylist test_config failing_after_first "PL"
        (replicate 250 "spotify:track:x") valid_session = (o, w')
    ∧ api_calls (history w')
      = concat (zip_with replicate ns
                  (map (λ c, with_bearer (tokens valid_session)
                               (post_request "/playlists/PL/tracks" c))
                     chunks))
    ∧ Forall (λ n, (1 ≤ n ≤ 4)%nat) ns.
Proof.
  destruct (addTracksToPlaylist_spec test_config failing_after_first "PL"
              (replicate 250 "spotify:track:x") valid_session)
    as (chunks & Hb & Hlen & _ & _ & Hrun).
  destruct (Hrun valid_session eq_refl)
    as (o & w' & ns & Heq & Hcalls & Hrange & _).
  exists chunks, o, w', ns. split_and!; [exact Hb | | exact Heq | | exact Hrange].
  - rewrite Hlen. reflexivity.
  - rewrite Hcalls. reflexivity.
Defined.

Example addTracksToPlaylist_aborts_on_failure :
  let r := addTracksToPlaylist test_config failing_after_first "PL"
             (replicate 250 "spotify:track:x") valid_session in
  r.1 = Throw (classify server_error)
  ∧ map (λ q, length <$> uris q) (api_calls (history r.2))
    = [Some 100; Some 100; Some 100; Some 100; Some 100]%nat
  ∧ omap (λ ev, match ev with Timeout ms => Some ms | _ => None end)
      (history r.2)
    = [1000; 2000; 4000]%Z.
Proof. by vm_compute. Qed.

Example getTrackDetails_three_chunks :
  let r := getTrackDetails test_config catalog_server (replicate 120 "x")
             valid_session in
  r.1 = Return (replicate 120 (catalog "x"))
  ∧ length (api_calls (history r.2)) = 3%nat.
Proof. by vm_compute. Qed.

(** C4, as stated, fails: a failed attempt is retried, so a page can take
    more than one request.  Against a server that answers 500 once and then
    delivers the single page [page2], [getLikedSongs()] returns the tracks
    of that page after two requests for it. *)
Lemma getLikedSongs_two_requests_for_one_page :
  let r := getLikedSongs test_config flaky_server 1 valid_session in
  r.1 = Return (tracks_of [page2])
  ∧ next page2 = None
  ∧ map url (api_calls (history r.2))
    = ["/me/tracks?limit=50"; "/me/tracks?limit=50"]
  ∧ omap (λ ev, match ev with Timeout ms => Some ms | _ => None end)
      (history r.2)
    = [1000%Z]
  ∧ length (api_calls (history r.2)) ≠ length [page2].
Proof. by vm_compute. Qed.

(** The retrier against a server that never answers: four attempts, the
    default delays, the last failure thrown. *)
Example retryWithBackoff_exhausts_the_default_policy :
  let r := retryWithBackoff
             (send (token_server (Rejected invalid_grant)) (get_request "/me"))
             no_options valid_session in
  r.1 = Throw (NetworkError "Network error" connection_refused)
  ∧ length (api_calls (history r.2)) = 4%nat
  ∧ omap (λ ev, match ev with Timeout ms => Some ms | _ => None end)
      (history r.2)
    = [1000; 2000; 4000]%Z.
Proof. by vm_compute. Qed.

(** * Further properties of the code *)

(** ** Loading the configuration *)

Lemma env_missing_false env v :
  env_missing env v = false ↔ ∃ s, env !! v = Some s ∧ s ≠ "".
Proof.
  unfold env_missing. destruct (env !! v) as [s|]; split.
  - destruct s; [done|]. intros _. by eexists.
  - intros (s' & [= <-] & Hne). by destruct s.
  - done.
  - by intros (s & ? & _).
Qed.

Lemma env_missing_true env v :
  env_missing env v = true ↔ env !! v = None ∨ env !! v = Some "".
Proof.
  unfold env_missing. destruct (env !! v) as [[|c s]|]; cbn; split;
    try done; auto; by intros [|].
Qed.

Lemma filter_nil_iff {A} (f : A → bool) (l : list A) :
  List.filter f l = [] ↔ ∀ x, x ∈ l → f x = false.
Proof.
  induction l as [|a l IH]; cbn.
  - split; [|done]. intros _ x Hx. by apply elem_of_nil in Hx.
  - destruct (f a) eqn:Hfa; split.
    + done.
    + intros H. specialize (H a (list_elem_of_here _ _)). congruence.
    + intros Hnil x [->|Hx]%elem_of_cons; [done|]. by apply IH.
    + intros H. apply IH. intros x Hx. apply H. by right.
Qed.

Lemma elem_of_filter_bool {A} (f : A → bool) (l : list A) (x : A) :
  x ∈ List.filter f l ↔ x ∈ l ∧ f x = true.
Proof. rewrite !list_elem_of_In. apply filter_In. Qed.

Lemma sublist_filter_bool {A} (f : A → bool) (l : list A) :
  sublist (List.filter f l) l.
Proof.
  induction l as [|a l IH]; cbn; [constructor|].
  destruct (f a); by constructor.
Qed.

Lemma loadConfig_inr_iff env :
  (∃ c, loadConfig env = inr c) ↔ List.filter (env_missing env) requiredEnvVars = [].
Proof.
  unfold loadConfig.
  destruct (List.filter (env_missing env) requiredEnvVars) as [|v l]; cbn.
  - split; [done|]. intros _. by eexists.
  - split; [by intros [c [=]]|done].
Qed.

(** X1.  [loadConfig()] returns a configuration exactly when each of the
    four required variables is set to a non-empty string; the result then
    holds these values, and the optional variables never make it fail: an
    unset or empty [PORT], [NODE_ENV] or [CACHE_DIR] gives 3000,
    "development" and "data/analysis-cache.json", and a [PORT] that is set
    is passed through [parseInt] without validation.  The constructor uses
    the environment only when no configuration is passed. *)
Theorem loadConfig_succeeds_iff (env : gmap string string) :
  ((∃ c, loadConfig env = inr c)
   ↔ ∀ v, v ∈ requiredEnvVars → ∃ s, env !! v = Some s ∧ s ≠ "")
  ∧ (∀ c, loadConfig env = inr c →
       env !! "SPOTIFY_CLIENT_ID" = Some (clientId (Loaded.spotify c))
       ∧ env !! "SPOTIFY_CLIENT_SECRET"
         = Some (clientSecret (Loaded.spotify c))
       ∧ env !! "SPOTIFY_REDIRECT_URI" = Some (redirectUri (Loaded.spotify c))
       ∧ env !! "OPENAI_API_KEY" = Some (Loaded.apiKey (Loaded.openai c))
       ∧ (env !! "PORT" = None ∨ env !! "PORT" = Some "" →
          Loaded.port (Loaded.server c) = Int 3000)
       ∧ (∀ s, env !! "PORT" = Some s → s ≠ "" →
          Loaded.port (Loaded.server c) = parseInt s)
       ∧ (env !! "NODE_ENV" = None ∨ env !! "NODE_ENV" = Some "" →
          Loaded.nodeEnv (Loaded.server c) = "development")
       ∧ (env !! "CACHE_DIR" = None ∨ env !! "CACHE_DIR" = Some "" →
          Loaded.directory (Loaded.cache c) = "data/analysis-cache.json"))
  ∧ (∀ config, constructor_config (Some config) env = inr config)
  ∧ ((∃ config, constructor_config None env = inr config)
     ↔ ∃ c, loadConfig env = inr c).
Proof.
  split_and!.
  - rewrite loadConfig_inr_iff, filter_nil_iff.
    split; intros H v Hv; apply env_missing_false; by apply H.
  - intros c Hc.
    assert (Hall : ∀ v, v ∈ requiredEnvVars →
                        ∃ s, env !! v = Some s ∧ s ≠ "").
    { assert (Hex : ∃ c, loadConfig env = inr c) by eauto.
      rewrite loadConfig_inr_iff, filter_nil_iff in Hex.
      intros v Hv. apply env_missing_false. by apply Hex. }
    unfold loadConfig in Hc.
    destruct (0 <? length _)%nat; [done|]. injection Hc as <-. cbn.
    unfold env_get.
    destruct (Hall "SPOTIFY_CLIENT_ID") as (s1 & -> & _);
      [unfold requiredEnvVars; set_solver|].
    destruct (Hall "SPOTIFY_CLIENT_SECRET") as (s2 & -> & _);
      [unfold requiredEnvVars; set_solver|].
    destruct (Hall "SPOTIFY_REDIRECT_URI") as (s3 & -> & _);
      [unfold requiredEnvVars; set_solver|].
    destruct (Hall "OPENAI_API_KEY") as (s4 & -> & _);
      [unfold requiredEnvVars; set_solver|].
    split_and!; try done.
    + intros [-> | ->]; reflexivity.
    + intros s -> Hs. by rewrite (or_else_truthy _ _ s).
    + intros H. by apply or_else_fallback.
    + intros H. by apply or_else_fallback.
  - done.
  - unfold constructor_config. destruct (loadConfig env) as [e|c]; split.
    + by intros [? [=]].
    + by intros [? [=]].
    + intros _. by eexists.
    + intros _. by eexists.
Qed.

Lemma loadConfig_succeeds_iff_witness :
  ∃ c, loadConfig complete_env = inr c
       ∧ clientId (Loaded.spotify c) = "client-id"
       ∧ Loaded.port (Loaded.server c) = Int 8080
       ∧ Loaded.nodeEnv (Loaded.server c) = "development".
Proof.
  destruct (loadConfig_succeeds_iff complete_env) as (Hiff & Hfields & _).
  destruct (proj2 Hiff) as [c Hc].
  { intros v Hv. unfold requiredEnvVars in Hv.
    repeat (apply elem_of_cons in Hv as [-> | Hv];
            [eexists; split; [by vm_compute | discriminate]|]).
    by apply elem_of_nil in Hv. }
  exists c. destruct (Hfields c Hc) as (H1 & _ & _ & _ & _ & Hport & Henv & _).
  split_and!; [exact Hc | | |].
  - assert (H : complete_env !! "SPOTIFY_CLIENT_ID" = Some "client-id")
      by (by vm_compute).
    congruence.
  - apply (Hport "8080"); [by vm_compute | discriminate].
  - apply Henv. left. by vm_compute.
Defined.

(** X2.  When [loadConfig()] throws, the message of the
    [ConfigurationError] is the fixed prefix followed by the missing
    variables separated by ", ": these are exactly the required variables
    that are unset or empty, there is at least one, and they come in the
    order of the list of required variables. *)
Theorem loadConfig_reports_missing (env : gmap string string)
    (message : string) :
  loadConfig env = inl (ConfigurationError message) →
  ∃ missing,
    missing ≠ []
    ∧ message
      = "Missing required environment variables: " +:+ join ", " missing
    ∧ sublist missing requiredEnvVars
    ∧ ∀ v, v ∈ missing
           ↔ v ∈ requiredEnvVars
             ∧ (env !! v = None ∨ env !! v = Some "").
Proof.
  unfold loadConfig.
  destruct (List.filter (env_missing env) requiredEnvVars) as [|v0 l] eqn:Hf;
    cbn [length Nat.ltb Nat.leb]; [done|].
  intros [= <-]. exists (v0 :: l). split_and!; [done | done | |].
  - rewrite <- Hf. apply sublist_filter_bool.
  - intros v. rewrite <- Hf, elem_of_filter_bool, env_missing_true. done.
Qed.

Lemma loadConfig_reports_missing_witness :
  loadConfig partial_env
  = inl (ConfigurationError
           ("Missing required environment variables: "
            +:+ "SPOTIFY_CLIENT_SECRET, SPOTIFY_REDIRECT_URI, OPENAI_API_KEY"))
  ∧ ∃ missing,
      sublist missing requiredEnvVars
      ∧ ("OPENAI_API_KEY" ∈ missing
         ↔ "OPENAI_API_KEY" ∈ requiredEnvVars
           ∧ (partial_env !! "OPENAI_API_KEY" = None
              ∨ partial_env !! "OPENAI_API_KEY" = Some "")).
Proof.
  assert (Hrun : loadConfig partial_env
                 = inl (ConfigurationError
                          ("Missing required environment variables: "
                           +:+ "SPOTIFY_CLIENT_SECRET, SPOTIFY_REDIRECT_URI, "
                           +:+ "OPENAI_API_KEY"))) by (by vm_compute).
  split; [exact Hrun|].
  destruct (loadConfig_reports_missing partial_env _ Hrun)
    as (missing & _ & _ & Hsub & Hin).
  exists missing. split; [exact Hsub | apply Hin].
Defined.

(** ** The classifier and the error classes *)

(** X3.  The [status] property of the error thrown by the response
    interceptor is always the HTTP status of the response it classifies
    (the 401 and 429 that [AuthenticationError] and [RateLimitError] pass to
    [super] included), and the thrown error is an instance of
    [SpotifyAPIError] exactly when a response was received. *)
Theorem classify_status_of_response (err : AxiosError) :
  (∀ r, response err = Some r →
     error_status (classify err) = Some (status r)
     ∧ instanceof_SpotifyAPIError (classify err) = true)
  ∧ (response err = None →
     error_status (classify err) = None
     ∧ instanceof_SpotifyAPIError (classify err) = false).
Proof.
  unfold classify. split.
  - intros r ->.
    destruct (Z.eqb_spec (status r) 401) as [->|H401]; [done|].
    destruct (Z.eqb_spec (status r) 429) as [->|H429]; done.
  - intros ->. by destruct (request err).
Qed.

Lemma classify_status_of_response_witness :
  error_status (classify (rate_limited (Some "5"))) = Some 429%Z
  ∧ error_status (classify (api_failure 503 None)) = Some 503%Z
  ∧ instanceof_SpotifyAPIError (classify connection_refused) = false.
Proof.
  split_and!.
  - destruct (classify_status_of_response (rate_limited (Some "5")))
      as [H _].
    by destruct (H _ eq_refl) as [-> _].
  - destruct (classify_status_of_response (api_failure 503 None)) as [H _].
    by destruct (H _ eq_refl) as [-> _].
  - destruct (classify_status_of_response connection_refused) as [_ H].
    by destruct (H eq_refl) as [_ ->].
Defined.

(** X4.  The interceptor leaves a failure unclassified exactly when the
    axios error has neither a response nor a request: it then throws a
    plain [Error] with the same message, which is none of the four typed
    failures. *)
Theorem classify_unclassified_iff (err : AxiosError) :
  (failure_kind (classify err) = None
   ↔ response err = None ∧ request err = false)
  ∧ (response err = None → request err = false →
     classify err = Error (message err)).
Proof.
  unfold classify. split.
  - destruct (response err) as [r|].
    + split; [|by intros [? _]].
      destruct (status r =? 401)%Z; [done|].
      by destruct (status r =? 429)%Z.
    + destruct (request err); split; try done. by intros [_ ?].
  - by intros -> ->.
Qed.

Lemma classify_unclassified_iff_witness :
  classify setup_failure = Error "Invalid URL"
  ∧ failure_kind (classify setup_failure) = None.
Proof.
  destruct (classify_unclassified_iff setup_failure) as [Hiff Herr].
  split; [by apply Herr | by apply Hiff].
Defined.

(** ** The session across the methods *)

Lemma api_calls_snoc_post h form :
  api_calls (h ++ [TokenPost form]) = api_calls h.
Proof. unfold api_calls. rewrite omap_app. cbn. by rewrite app_nil_r. Qed.

Section SessionEffects.
Variable config : Config.
Variable server : Server.

(** What a refresh can do: throw without touching anything, or post one
    refresh grant and then either store a new snapshot or throw an
    [AuthenticationError] with the snapshot unchanged. *)
Lemma refreshAccessToken_cases w :
  refreshAccessToken config server w
  = (Throw (AuthenticationError "No refresh token available"), w)
  ∨ ∃ t r o w',
      tokens w = Some t ∧ refresh_token t = Some r ∧ r ≠ ""
      ∧ refreshAccessToken config server w = (o, w')
      ∧ history w' = history w ++ [TokenPost (refresh_token_form config r)]
      ∧ now w'
        = (now w + latency (accounts server (history w)
                              (refresh_token_form config r)))%Z
      ∧ ((∃ d, outcome (accounts server (history w)
                          (refresh_token_form config r)) = Resolved d
               ∧ o = Return (TokenData.access_token d)
               ∧ tokens w'
                 = Some {| access_token := TokenData.access_token d;
                           refresh_token := refresh_token t;
                           token_type := token_type t;
                           expires_in := expires_in t;
                           scope := scope t;
                           expires_at :=
                             (now w' + TokenData.expires_in d * 1000)%Z |})
         ∨ (∃ e, outcome (accounts server (history w)
                            (refresh_token_form config r)) = Rejected e
                 ∧ o = Throw (AuthenticationError
                                (or_else (description_of e)
                                   "Token refresh failed"))
                 ∧ tokens w' = Some t)).
Proof.
  unfold refreshAccessToken, stored_refresh_token.
  destruct (tokens w) as [t|] eqn:Ht; [|by left].
  destruct (refresh_token t) as [r|] eqn:Hr; [|by left].
  destruct (truthy r) eqn:Htr; [|by left].
  right. exists t, r.
  unfold try_catch, bind, axios_post_token.
  fold (refresh_token_form config r).
  destruct (outcome (accounts server (history w)
                       (refresh_token_form config r))) as [d|e] eqn:Hout;
    cbn; eexists _, _;
    (split_and!; [done | done | by destruct r | reflexivity | done | done |]).
  - left. exists d. split_and!; [done | done |]. cbn. by rewrite Hr.
  - right. exists e. split_and!; [done | done | by cbn].
Qed.

Lemma refreshAccessToken_effect w :
  api_calls (history (refreshAccessToken config server w).2)
  = api_calls (history w)
  ∧ (is_Some (tokens w) →
     is_Some (tokens (refreshAccessToken config server w).2))
  ∧ ((∃ v, (refreshAccessToken config server w).1 = Return v)
     ∨ (∃ m, (refreshAccessToken config server w).1
             = Throw (AuthenticationError m))).
Proof.
  destruct (refreshAccessToken_cases w)
    as [-> | (t & r & o & w' & Ht & Hr & Hne & -> & Hh & _ & Hcases)]; cbn.
  - split_and!; [done | done |]. right. by eexists.
  - rewrite Hh, api_calls_snoc_post.
    destruct Hcases as [(d & _ & -> & ->) | (e & _ & -> & ->)];
      (split_and!; [done | by eexists |]); [left | right]; by eexists.
Qed.

Lemma ensureValidToken_effect w :
  api_calls (history (ensureValidToken config server w).2)
  = api_calls (history w)
  ∧ (is_Some (tokens w) →
     is_Some (tokens (ensureValidToken config server w).2))
  ∧ ((ensureValidToken config server w).1 = Return tt
     ∨ ∃ m, (ensureValidToken config server w).1
            = Throw (AuthenticationError m)).
Proof.
  unfold ensureValidToken. destruct (tokens w) as [t|] eqn:Ht.
  - destruct (expires_at t <=? now w + 5 * 60 * 1000)%Z.
    + destruct (refreshAccessToken_effect w) as (Hcalls & Htok & Hres).
      unfold bind.
      destruct (refreshAccessToken config server w) as [[v|e|] w'];
        cbn in *.
      * split_and!; [done | rewrite Ht in Htok; auto | by left].
      * split_and!; [done | rewrite Ht in Htok; auto |].
        right. destruct Hres as [[? [=]] | [m [= ->]]]. by eexists.
      * by destruct Hres as [[? [=]] | [? [=]]].
    + cbn. rewrite Ht. split_and!; [done | done | by left].
  - cbn. rewrite Ht. split_and!; [done | by intros [? [=]] |].
    right. by eexists.
Qed.

End SessionEffects.

Section SessionFailures.
Variable config : Config.
Variable server : Server.

(** X5.  When the token endpoint rejects a refresh, [refreshAccessToken()]
    throws an [AuthenticationError] after exactly one post, which is not
    retried, and the stored snapshot is the one from before: the session
    stays authenticated.  The message is the [error_description] of the
    body of the server's response when there is a non-empty one; it is
    "Token refresh failed" when no response was received, when the response
    has no body, and when the body has no [error_description] or an empty
    one. *)
Theorem refreshAccessToken_rejected (w : World) (t : AuthTokens)
    (r : string) (e : AxiosError) :
  tokens w = Some t → refresh_token t = Some r → r ≠ "" →
  outcome (accounts server (history w) (refresh_token_form config r))
  = Rejected e →
  ∃ msg w',
    refreshAccessToken config server w
    = (Throw (AuthenticationError msg), w')
    ∧ tokens w' = Some t
    ∧ isAuthenticated w' = (Return true, w')
    ∧ history w' = history w ++ [TokenPost (refresh_token_form config r)]
    ∧ (∀ rsp d s, response e = Some rsp → data rsp = Some d →
         error_description d = Some s → s ≠ "" → msg = s)
    ∧ (response e = None
       ∨ (∃ rsp, response e = Some rsp
                 ∧ (data rsp = None
                    ∨ ∃ d, data rsp = Some d
                           ∧ (error_description d = None
                              ∨ error_description d = Some ""))) →
       msg = "Token refresh failed").
Proof.
  intros Ht Hr Hne Hout.
  destruct (refreshAccessToken_cases config server w)
    as [Hno | (t' & r' & o & w' & Ht' & Hr' & _ & Hrun & Hh & _ & Hcases)].
  - unfold refreshAccessToken in Hno.
    rewrite (stored_refresh_token_Some w t r) in Hno by done.
    unfold try_catch, bind, axios_post_token in Hno.
    fold (refresh_token_form config r) in Hno. rewrite Hout in Hno.
    apply (f_equal (λ x, length (history x.2))) in Hno. cbn in Hno.
    rewrite length_app in Hno. cbn in Hno. lia.
  - assert (t' = t) as -> by congruence.
    assert (r' = r) as -> by congruence.
    destruct Hcases as [(d & Hd & _) | (e' & He' & -> & Htok)];
      [congruence|].
    assert (e' = e) as -> by congruence.
    eexists _, w'. split_and!; [exact Hrun | done | | done | |].
    + unfold isAuthenticated. by rewrite Htok.
    + intros rsp d s Hrsp Hd Hs Hsne. apply or_else_truthy; [|done].
      by apply (description_of_Some e rsp d s).
    + intros H. by apply or_else_fallback, description_of_none.
Qed.

(** X6.  A failing pre-flight check stops every catalog operation before
    it sends anything to the resource API: the operation throws the
    pre-flight's error, always an [AuthenticationError], in the world the
    check left.  In particular an unauthenticated session, and a session
    whose snapshot is about to expire and holds no refresh token, fail
    without any network traffic at all. *)
Theorem preflight_failure_aborts (fuel : nat) (trackIds : list string)
    (playlistId : string) (trackUris : list string) (w : World) :
  let agree := λ (r : Outcome unit * World),
    (getLikedSongs config server fuel w).2 = r.2
    ∧ (getTrackDetails config server trackIds w).2 = r.2
    ∧ (addTracksToPlaylist config server playlistId trackUris w).2 = r.2
    ∧ ∀ e, r.1 = Throw e →
        (getLikedSongs config server fuel w).1 = Throw e
        ∧ (getTrackDetails config server trackIds w).1 = Throw e
        ∧ (addTracksToPlaylist config server playlistId trackUris w).1
          = Throw e in
  (∀ e w1, ensureValidToken config server w = (Throw e, w1) →
     agree (Throw e, w1)
     ∧ api_calls (history w1) = api_calls (history w)
     ∧ ∃ m, e = AuthenticationError m)
  ∧ (tokens w = None →
     agree (Throw (AuthenticationError "Not authenticated"), w))
  ∧ (∀ t, tokens w = Some t →
       (expires_at t ≤ now w + 5 * 60 * 1000)%Z →
       refresh_token t = None ∨ refresh_token t = Some "" →
       agree (Throw (AuthenticationError "No refresh token available"), w)).
Proof.
  intros agree.
  assert (Hthrow : ∀ e w1,
    ensureValidToken config server w = (Throw e, w1) → agree (Throw e, w1)).
  { intros e w1 Hens. unfold agree, getLikedSongs, getTrackDetails,
      addTracksToPlaylist, bind. rewrite Hens. cbn.
    split_and!; [done..|]. by intros ? [= <-]. }
  split_and!.
  - intros e w1 Hens. split; [by apply Hthrow|].
    destruct (ensureValidToken_effect config server w) as (Hcalls & _ & Hres).
    rewrite Hens in Hcalls, Hres. cbn in *.
    split; [done|]. destruct Hres as [[=] | [m [= ->]]]. by eexists.
  - intros Ht. apply Hthrow. unfold ensureValidToken. by rewrite Ht.
  - intros t Ht Hexp Hr. apply Hthrow. unfold ensureValidToken.
    rewrite Ht. destruct (Z.leb_spec (expires_at t) (now w + 5 * 60 * 1000));
      [|lia].
    unfold bind, refreshAccessToken, stored_refresh_token. rewrite Ht.
    by destruct Hr as [-> | ->].
Qed.

End SessionFailures.

Lemma refreshAccessToken_rejected_witness :
  ∃ w',
    refreshAccessToken test_config (token_server (Rejected invalid_grant))
      (session_expiring 1700000000000 (Some "R"))
    = (Throw (AuthenticationError "Invalid authorization code"), w')
    ∧ tokens w' = tokens (session_expiring 1700000000000 (Some "R"))
    ∧ length (history w') = 1%nat.
Proof.
  destruct (refreshAccessToken_rejected test_config
              (token_server (Rejected invalid_grant))
              (session_expiring 1700000000000 (Some "R"))
              {| access_token := "A"; refresh_token := Some "R";
                 token_type := "Bearer"; expires_in := 3600;
                 scope := "x"; expires_at := 1700000000000 |}
              "R" invalid_grant)
    as (msg & w' & Hrun & Htok & _ & Hh & Hmsg & _);
    [reflexivity | reflexivity | discriminate | reflexivity |].
  exists w'. rewrite Hrun, Htok, Hh.
  rewrite (Hmsg {| status := 400; headers := ∅;
                   data := Some {| error := Some (ErrorCode "invalid_grant");
                                   error_description :=
                                     Some "Invalid authorization code" |} |}
             {| error := Some (ErrorCode "invalid_grant");
                error_description := Some "Invalid authorization code" |}
             "Invalid authorization code");
    [done | reflexivity | reflexivity | reflexivity | discriminate].
Defined.

Lemma preflight_failure_aborts_witness :
  getLikedSongs test_config two_page_server 5 fresh_session
  = (Throw (AuthenticationError "Not authenticated"), fresh_session)
  ∧ (addTracksToPlaylist test_config two_page_server "PL" ["u"]
       (session_expiring 1700000000000 None)).1
    = Throw (AuthenticationError "No refresh token available").
Proof.
  split.
  - destruct (preflight_failure_aborts test_config two_page_server 5 [] "PL"
                [] fresh_session) as (_ & Hnone & _).
    destruct (Hnone eq_refl) as (Hw & _ & _ & He).
    destruct (He _ eq_refl) as (Ho & _).
    destruct (getLikedSongs _ _ _ _) as [o w']. cbn in *. by subst.
  - destruct (preflight_failure_aborts test_config two_page_server 5 [] "PL"
                ["u"] (session_expiring 1700000000000 None))
      as (_ & _ & Hexp).
    destruct (Hexp _ eq_refl) as (_ & _ & _ & He);
      [by vm_compute | by left |].
    by destruct (He _ eq_refl) as (_ & _ & ->).
Defined.

(** ** Requests are bound to the stored snapshot *)

Lemma session_bound_ret {A} (a : A) : session_bound (ret a).
Proof. intros w. split; [done|]. exists []. by rewrite app_nil_r. Qed.

Lemma session_bound_throw {A} (e : JsError) : session_bound (@throw A e).
Proof. intros w. split; [done|]. exists []. by rewrite app_nil_r. Qed.

Lemma session_bound_out_of_fuel {A} :
  session_bound (λ w, (@OutOfFuel A, w)).
Proof. intros w. split; [done|]. exists []. by rewrite app_nil_r. Qed.

Lemma session_bound_bind {A B} (m : M A) (k : A → M B) :
  session_bound m → (∀ a, session_bound (k a)) → session_bound (bind m k).
Proof.
  intros Hm Hk w. unfold bind.
  destruct (Hm w) as (Htok & sent & Hcalls & Hauth).
  destruct (m w) as [[a|e|] w1]; cbn in *; [|by eauto..].
  destruct (Hk a w1) as (Htok' & sent' & Hcalls' & Hauth').
  split; [congruence|]. exists (sent ++ sent').
  rewrite Hcalls', Hcalls, <- app_assoc. split; [done|].
  apply Forall_app. split; [done|]. by rewrite <- Htok.
Qed.

Lemma session_bound_send server req :
  authorization req = None → session_bound (send server req).
Proof.
  intros Hreq w. destruct (send_run server req w) as (o & -> & _). cbn.
  split; [done|]. exists [with_bearer (tokens w) req].
  rewrite api_calls_snoc_call. split; [done|]. constructor; [|done].
  unfold authorized_by, with_bearer. by destruct (tokens w).
Qed.

Lemma session_bound_retry_loop {T} (operation : M T) p fuel :
  session_bound operation →
  ∀ attempt lastError,
    session_bound (retry_loop operation p fuel attempt lastError).
Proof.
  intros Hop. induction fuel as [|fuel IH]; intros attempt lastError w.
  - apply session_bound_out_of_fuel.
  - cbn [retry_loop]. destruct (attempt <=? p_maxRetries p)%nat.
    + destruct (Hop w) as (Htok & sent & Hcalls & Hauth).
      destruct (operation w) as [[v|e|] w1]; cbn in *; [by eauto| |by eauto].
      destruct (attempt =? p_maxRetries p)%nat; [cbn; by eauto|].
      destruct (IH (S attempt) (Some e)
                  (setTimeout (backoff_delay p attempt) w1))
        as (Htok' & sent' & Hcalls' & Hauth').
      cbn in Htok', Hcalls', Hauth'.
      rewrite api_calls_snoc_timeout in Hcalls'.
      split; [congruence|]. exists (sent ++ sent').
      rewrite Hcalls', Hcalls, <- app_assoc. split; [done|].
      apply Forall_app. split; [done|]. by rewrite <- Htok.
    + destruct lastError; [apply session_bound_throw|].
      apply (session_bound_throw ThrownUndefined).
Qed.

Lemma session_bound_retry {T} (operation : M T) options :
  session_bound operation →
  session_bound (retryWithBackoff operation options).
Proof. intros Hop. by apply session_bound_retry_loop. Qed.

Lemma session_bound_for_of {A S} (body : A → S → M S) (l : list A) :
  (∀ x s, session_bound (body x s)) → ∀ s, session_bound (for_of l body s).
Proof.
  intros Hbody. induction l as [|x l IH]; intros s; cbn [for_of].
  - apply session_bound_ret.
  - apply session_bound_bind; [apply Hbody | apply IH].
Qed.

Lemma session_bound_likedSongs_loop server fuel :
  ∀ nextUrl allSongs,
    session_bound (likedSongs_loop server fuel nextUrl allSongs).
Proof.
  induction fuel as [|fuel IH]; intros nextUrl allSongs;
    destruct nextUrl as [u|]; cbn [likedSongs_loop];
    try apply session_bound_ret;
    (destruct (truthy u); [|apply session_bound_ret]).
  - apply session_bound_out_of_fuel.
  - apply session_bound_bind.
    + apply session_bound_retry. by apply session_bound_send.
    + intros [page|tracks|raw|i]; [apply IH | apply session_bound_throw..].
Qed.

Section Preflighted.
Variable config : Config.
Variable server : Server.

Lemma preflight_then_bound {A} (body : M A) (w : World) :
  session_bound body →
  after_preflight config server (ensureValidToken config server ;;; body) w.
Proof.
  intros Hbody. unfold after_preflight, bind.
  destruct (ensureValidToken_effect config server w) as (Hcalls & Htok & _).
  destruct (ensureValidToken config server w) as [[[]|e|] w1]; cbn in *.
  - destruct (Hbody w1) as (Htok' & sent & Hcalls' & Hauth).
    split_and!; [done | rewrite Htok'; auto |].
    exists sent. by rewrite Hcalls', Hcalls.
  - split_and!; [done | done |]. exists []. by rewrite app_nil_r.
  - split_and!; [done | done |]. exists []. by rewrite app_nil_r.
Qed.

Lemma getTrackDetails_after_preflight trackIds w :
  after_preflight config server (getTrackDetails config server trackIds) w.
Proof.
  apply preflight_then_bound. destruct (make_batches 50 trackIds).
  - apply session_bound_for_of. intros batch allTracks.
    apply session_bound_bind.
    + apply session_bound_retry. by apply session_bound_send.
    + intros [page|tracks|raw|i];
        [apply session_bound_throw | apply session_bound_ret
        | apply session_bound_throw..].
  - apply session_bound_out_of_fuel.
Qed.

Lemma addTracksToPlaylist_after_preflight playlistId trackUris w :
  after_preflight config server
    (addTracksToPlaylist config server playlistId trackUris) w.
Proof.
  apply preflight_then_bound. destruct (make_batches 100 trackUris).
  - apply session_bound_for_of. intros batch [].
    apply session_bound_bind.
    + apply session_bound_retry. by apply session_bound_send.
    + intros _. apply session_bound_ret.
  - apply session_bound_out_of_fuel.
Qed.

Lemma getLikedSongs_after_preflight fuel w :
  after_preflight config server (getLikedSongs config server fuel) w.
Proof. apply preflight_then_bound, session_bound_likedSongs_loop. Qed.

Lemma createPlaylist_after_preflight request w :
  after_preflight config server (createPlaylist config server request) w.
Proof.
  apply preflight_then_bound. apply session_bound_bind.
  - by apply session_bound_send.
  - intros userResponse. apply session_bound_bind.
    + apply session_bound_retry.
      by apply (session_bound_send server (playlist_request _ _)).
    + intros response. apply session_bound_ret.
Qed.

(** X7.  No method of the client ever clears the stored snapshot, and the
    catalog operations write it through the pre-flight check only: after
    [getLikedSongs], [getTrackDetails], [createPlaylist] or
    [addTracksToPlaylist], whether they return or throw, [this.tokens] is
    what [ensureValidToken()] left, and every request they sent to the
    resource API carries exactly the bearer of that snapshot. *)
Theorem session_survives_every_method (fuel : nat) (trackIds : list string)
    (request : CreatePlaylistRequest.t) (playlistId : string)
    (trackUris : list string) (code : string) (state : option string)
    (t : AuthTokens) (w : World) :
  after_preflight config server (getLikedSongs config server fuel) w
  ∧ after_preflight config server (getTrackDetails config server trackIds) w
  ∧ after_preflight config server (createPlaylist config server request) w
  ∧ after_preflight config server
      (addTracksToPlaylist config server playlistId trackUris) w
  ∧ (is_Some (tokens w) →
     is_Some (tokens (ensureValidToken config server w).2)
     ∧ is_Some (tokens (refreshAccessToken config server w).2)
     ∧ is_Some (tokens (exchangeCodeForToken config server code w).2))
  ∧ tokens (generateAuthUrl config state w).2 = tokens w
  ∧ tokens (isAuthenticated w).2 = tokens w
  ∧ tokens (getTokens w).2 = tokens w
  ∧ tokens (setTokens t w).2 = Some t.
Proof.
  split_and!;
    [apply getLikedSongs_after_preflight
    | apply getTrackDetails_after_preflight
    | apply createPlaylist_after_preflight
    | apply addTracksToPlaylist_after_preflight | | done..].
  intros Hsome. split_and!.
  - by apply ensureValidToken_effect.
  - by apply refreshAccessToken_effect.
  - unfold exchangeCodeForToken, try_catch, bind, axios_post_token.
    destruct (outcome _); cbn; [by eexists | done].
Qed.

(** The bearer header determines the access token. *)
Lemma bearer_inj (a b : string) :
  "Bearer " +:+ a = "Bearer " +:+ b → a = b.
Proof.
  change ("Bearer " +:+ a)
    with (String "B" (String "e" (String "a" (String "r" (String "e"
            (String "r" (String " " a))))))).
  change ("Bearer " +:+ b)
    with (String "B" (String "e" (String "a" (String "r" (String "e"
            (String "r" (String " " b))))))).
  by intros [= ->].
Qed.

(** X8.  When the pre-flight check refreshes the access token, every
    request that [getLikedSongs], [getTrackDetails], [createPlaylist] or
    [addTracksToPlaylist] then sends carries the new access token; when the
    new token differs from the one stored before, none of them carries the
    old one. *)
Theorem refreshed_token_is_used (fuel : nat) (trackIds : list string)
    (request : CreatePlaylistRequest.t) (playlistId : string)
    (trackUris : list string) (w : World)
    (t : AuthTokens) (r : string) (d : TokenData.t) :
  tokens w = Some t →
  (expires_at t ≤ now w + 5 * 60 * 1000)%Z →
  refresh_token t = Some r → r ≠ "" →
  outcome (accounts server (history w) (refresh_token_form config r))
  = Resolved d →
  let fresh := λ q : ApiRequest,
    authorization q = Some ("Bearer " +:+ TokenData.access_token d)
    ∧ (TokenData.access_token d ≠ access_token t →
       authorization q ≠ Some ("Bearer " +:+ access_token t)) in
  (∃ sent,
     api_calls (history (getLikedSongs config server fuel w).2)
     = api_calls (history w) ++ sent ∧ Forall fresh sent)
  ∧ (∃ sent,
       api_calls (history (getTrackDetails config server trackIds w).2)
       = api_calls (history w) ++ sent ∧ Forall fresh sent)
  ∧ (∃ sent,
       api_calls (history (createPlaylist config server request w).2)
       = api_calls (history w) ++ sent ∧ Forall fresh sent)
  ∧ (∃ sent,
       api_calls
         (history (addTracksToPlaylist config server playlistId trackUris
                     w).2)
       = api_calls (history w) ++ sent ∧ Forall fresh sent).
Proof.
  intros Ht Hexp Hr Hne Hd fresh.
  assert (Htok : ∃ t1, tokens (ensureValidToken config server w).2 = Some t1
                       ∧ access_token t1 = TokenData.access_token d).
  { unfold ensureValidToken. rewrite Ht.
    destruct (Z.leb_spec (expires_at t) (now w + 5 * 60 * 1000)); [|lia].
    unfold bind.
    destruct (refreshAccessToken_cases config server w)
      as [Hno | (t' & r' & o & w' & Ht' & Hr' & _ & Hrun & _ & _ & Hcases)].
    - unfold refreshAccessToken in Hno.
      rewrite (stored_refresh_token_Some w t r) in Hno by done.
      unfold try_catch, bind, axios_post_token in Hno.
      fold (refresh_token_form config r) in Hno. rewrite Hd in Hno.
      done.
    - assert (t' = t) as -> by congruence.
      assert (r' = r) as -> by congruence.
      destruct Hcases as [(d' & Hd' & -> & Htok) | (e & He & _)];
        [|congruence].
      assert (d' = d) as -> by congruence.
      rewrite Hrun. cbn. eexists. split; [exact Htok | done]. }
  destruct Htok as (t1 & Ht1 & Hacc).
  assert (Hfresh : ∀ sent,
    Forall (authorized_by (tokens (ensureValidToken config server w).2)) sent
    → Forall fresh sent).
  { intros sent Hsent. eapply Forall_impl; [exact Hsent|].
    intros q. unfold authorized_by, fresh.
    rewrite Ht1. cbn. rewrite Hacc. intros ->. split; [done|].
    intros Hdiff Heq. apply Hdiff, bearer_inj. congruence. }
  split_and!.
  - destruct (getLikedSongs_after_preflight fuel w)
      as (_ & _ & sent & Hcalls & Hauth). eauto.
  - destruct (getTrackDetails_after_preflight trackIds w)
      as (_ & _ & sent & Hcalls & Hauth). eauto.
  - destruct (createPlaylist_after_preflight request w)
      as (_ & _ & sent & Hcalls & Hauth). eauto.
  - destruct (addTracksToPlaylist_after_preflight playlistId trackUris w)
      as (_ & _ & sent & Hcalls & Hauth). eauto.
Qed.

End Preflighted.

Lemma session_survives_every_method_witness :
  is_Some (tokens (exchangeCodeForToken test_config
                     (token_server (Rejected invalid_grant)) "AUTH_CODE"
                     valid_session).2)
  ∧ tokens (getTrackDetails test_config catalog_server ["a"] valid_session).2
    = tokens valid_session
  ∧ tokens (createPlaylist test_config (me_server (DProfile (Some "user42")))
              party_request valid_session).2
    = tokens valid_session.
Proof.
  split_and!.
  - destruct (session_survives_every_method test_config
                (token_server (Rejected invalid_grant)) 0 [] party_request
                "PL" [] "AUTH_CODE" None
                {| access_token := "A"; refresh_token := None;
                   token_type := "Bearer"; expires_in := 0; scope := "x";
                   expires_at := 0 |} valid_session)
      as (_ & _ & _ & _ & Hkeep & _).
    apply Hkeep. by eexists.
  - destruct (session_survives_every_method test_config catalog_server 0
                ["a"] party_request "PL" [] "AUTH_CODE" None
                {| access_token := "A"; refresh_token := None;
                   token_type := "Bearer"; expires_in := 0; scope := "x";
                   expires_at := 0 |} valid_session)
      as (_ & (Htok & _) & _).
    rewrite Htok. reflexivity.
  - destruct (session_survives_every_method test_config
                (me_server (DProfile (Some "user42"))) 0 [] party_request
                "PL" [] "AUTH_CODE" None
                {| access_token := "A"; refresh_token := None;
                   token_type := "Bearer"; expires_in := 0; scope := "x";
                   expires_at := 0 |} valid_session)
      as (_ & _ & (Htok & _) & _).
    rewrite Htok. reflexivity.
Defined.

Lemma refreshed_token_is_used_witness :
  (getTrackDetails test_config (refreshing_server rotated_response)
     ["a"; "b"] (session_expiring 1700000000000 (Some "R"))).1
  = Return [catalog "a"; catalog "b"]
  ∧ ∃ sent,
      api_calls
        (history (getTrackDetails test_config
                    (refreshing_server rotated_response) ["a"; "b"]
                    (session_expiring 1700000000000 (Some "R"))).2)
      = sent
      ∧ Forall (λ q, authorization q = Some "Bearer A2"
                     ∧ authorization q ≠ Some "Bearer A") sent.
Proof.
  split; [by vm_compute|].
  destruct (refreshed_token_is_used test_config
              (refreshing_server rotated_response) 0 ["a"; "b"]
              party_request "PL" []
              (session_expiring 1700000000000 (Some "R"))
              {| access_token := "A"; refresh_token := Some "R";
                 token_type := "Bearer"; expires_in := 3600;
                 scope := "x"; expires_at := 1700000000000 |}
              "R" rotated_response)
    as (_ & (sent & Hcalls & Hfresh) & _);
    [reflexivity | by vm_compute | reflexivity | discriminate | reflexivity |].
  exists sent. split; [exact Hcalls|].
  eapply Forall_impl; [exact Hfresh|].
  intros q [Hnew Hold]. split; [exact Hnew|]. by apply Hold.
Defined.

Section PreflightAgain.
Variable config : Config.
Variable server : Server.

(** X9.  After a pre-flight check that refreshed the token, a second check
    at the same instant does nothing when the new lifetime exceeds five
    minutes; when the server grants five minutes or less, the second check
    refreshes again: with such lifetimes every operation posts a refresh
    grant. *)
Theorem ensureValidToken_again (w : World) (t : AuthTokens) (r : string)
    (d : TokenData.t) :
  tokens w = Some t →
  (expires_at t ≤ now w + 5 * 60 * 1000)%Z →
  refresh_token t = Some r → r ≠ "" →
  outcome (accounts server (history w) (refresh_token_form config r))
  = Resolved d →
  ∃ w1,
    ensureValidToken config server w = (Return tt, w1)
    ∧ ((TokenData.expires_in d * 1000 > 5 * 60 * 1000)%Z →
       ensureValidToken config server w1 = (Return tt, w1))
    ∧ ((TokenData.expires_in d * 1000 ≤ 5 * 60 * 1000)%Z →
       history (ensureValidToken config server w1).2
       = history w1 ++ [TokenPost (refresh_token_form config r)]).
Proof.
  intros Ht Hexp Hr Hne Hd.
  destruct (refreshAccessToken_cases config server w)
    as [Hno | (t' & r' & o & w1 & Ht' & Hr' & _ & Hrun & Hh & Hnow & Hcases)].
  { unfold refreshAccessToken in Hno.
    rewrite (stored_refresh_token_Some w t r) in Hno by done.
    unfold try_catch, bind, axios_post_token in Hno.
    fold (refresh_token_form config r) in Hno. by rewrite Hd in Hno. }
  assert (t' = t) as -> by congruence.
  assert (r' = r) as -> by congruence.
  destruct Hcases as [(d' & Hd' & -> & Htok) | (e & He & _)]; [|congruence].
  assert (d' = d) as -> by congruence.
  exists w1. split_and!.
  - unfold ensureValidToken. rewrite Ht.
    destruct (Z.leb_spec (expires_at t) (now w + 5 * 60 * 1000)); [|lia].
    unfold bind. by rewrite Hrun.
  - intros Hlong. unfold ensureValidToken. rewrite Htok. cbn [expires_at].
    destruct (Z.leb_spec (now w1 + TokenData.expires_in d * 1000)
                (now w1 + 5 * 60 * 1000)); [lia | done].
  - intros Hshort. unfold ensureValidToken. rewrite Htok. cbn [expires_at].
    destruct (Z.leb_spec (now w1 + TokenData.expires_in d * 1000)
                (now w1 + 5 * 60 * 1000)); [|lia].
    unfold bind.
    destruct (refreshAccessToken_cases config server w1)
      as [Hno | (t2 & r2 & o2 & w2 & Ht2 & Hr2 & _ & Hrun2 & Hh2 & _)].
    + unfold refreshAccessToken in Hno.
      rewrite (stored_refresh_token_Some w1 _ r Htok) in Hno by done.
      unfold try_catch, bind, axios_post_token in Hno.
      apply (f_equal (λ x, length (history x.2))) in Hno.
      destruct (outcome _) in Hno; cbn in Hno; rewrite length_app in Hno;
        cbn in Hno; lia.
    + rewrite Htok in Ht2. injection Ht2 as <-. cbn in Hr2.
      assert (r2 = r) as -> by congruence.
      rewrite Hrun2. by destruct o2.
Qed.

End PreflightAgain.

Lemma ensureValidToken_again_witness :
  (∃ w1,
     ensureValidToken test_config (refreshing_server rotated_response)
       (session_expiring 1700000000000 (Some "R")) = (Return tt, w1)
     ∧ ensureValidToken test_config (refreshing_server rotated_response) w1
       = (Return tt, w1))
  ∧ (∃ w1,
       ensureValidToken test_config (refreshing_server short_lived_response)
         (session_expiring 1700000000000 (Some "R")) = (Return tt, w1)
       ∧ length (history
                   (ensureValidToken test_config
                      (refreshing_server short_lived_response) w1).2)
         = 2%nat).
Proof.
  split.
  - destruct (ensureValidToken_again test_config
                (refreshing_server rotated_response)
                (session_expiring 1700000000000 (Some "R"))
                {| access_token := "A"; refresh_token := Some "R";
                   token_type := "Bearer"; expires_in := 3600;
                   scope := "x"; expires_at := 1700000000000 |}
                "R" rotated_response)
      as (w1 & Hrun & Hlong & _);
      [reflexivity | by vm_compute | reflexivity | discriminate
      | reflexivity |].
    exists w1. split; [exact Hrun | apply Hlong; by vm_compute].
  - destruct (ensureValidToken_again test_config
                (refreshing_server short_lived_response)
                (session_expiring 1700000000000 (Some "R"))
                {| access_token := "A"; refresh_token := Some "R";
                   token_type := "Bearer"; expires_in := 3600;
                   scope := "x"; expires_at := 1700000000000 |}
                "R" short_lived_response)
      as (w1 & Hrun & _ & Hshort);
      [reflexivity | by vm_compute | reflexivity | discriminate
      | reflexivity |].
    exists w1. split; [exact Hrun|]. rewrite Hshort by (by vm_compute).
    rewrite length_app.
    replace w1 with (ensureValidToken test_config
                       (refreshing_server short_lived_response)
                       (session_expiring 1700000000000 (Some "R"))).2
      by (by rewrite Hrun).
    reflexivity.
Defined.

(** ** More on the retrier *)

Section RetryOnTheWire.
Variable server : Server.



End RetryOnTheWire.






(** ** More on chunking *)

Lemma batch_loop_lookup {A} (size : nat) (l : list A) :
  ∀ fuel k batches res,
    batch_loop size l fuel (k * size) batches = Some res →
    length batches = k →
    (∀ j c, batches !! j = Some c → c = take size (drop (j * size) l)) →
    ∀ j c, res !! j = Some c → c = take size (drop (j * size) l).
Proof.
  induction fuel as [|fuel IH]; intros k batches res Hrun Hlen Hacc;
    cbn [batch_loop] in Hrun;
    destruct (k * size <? length l)%nat; try done;
    try (injection Hrun as <-; exact Hacc).
  apply (IH (S k) (batches ++ [slice l (k * size) (k * size + size)]) res).
  - replace (S k * size)%nat with (k * size + size)%nat by lia. exact Hrun.
  - rewrite length_app. cbn. lia.
  - intros j c Hj. destruct (decide (j < length batches)%nat) as [Hlt|Hge].
    + rewrite lookup_app_l in Hj by done. by apply Hacc.
    + rewrite lookup_app_r in Hj by lia.
      destruct (j - length batches)%nat as [|m] eqn:Hm; [|done].
      injection Hj as <-. assert (j = k) as -> by lia.
      unfold slice. f_equal. lia.
Qed.

(** X12.  The batches are consecutive windows of the input: batch [j] is
    [l.slice(j * size, j * size + size)], every batch but the last holds
    exactly [size] elements, and nothing is lost or duplicated. *)
Theorem make_batches_windows {A} (size : nat) (l : list A)
    (batches : list (list A)) :
  (0 < size)%nat →
  make_batches size l = Some batches →
  concat batches = l
  ∧ (∀ j c, batches !! j = Some c →
       c = take size (drop (j * size) l)
       ∧ (1 ≤ length c ≤ size)%nat
       ∧ ((S j < length batches)%nat → length c = size)).
Proof.
  intros Hsize Hb.
  destruct (make_batches_spec size l Hsize) as (cs & Hcs & Hcat & Hall & _).
  assert (cs = batches) as -> by congruence.
  split; [done|].
  assert (Hwin : ∀ j c, batches !! j = Some c →
                        c = take size (drop (j * size) l)).
  { apply (batch_loop_lookup size l (length l) 0 [] batches);
      [exact Hb | done | by intros j c [=]]. }
  intros j c Hj. split; [by apply Hwin|]. split.
  - by apply (Forall_lookup_1 _ _ _ _ Hall Hj).
  - intros Hnext.
    destruct (lookup_lt_is_Some_2 batches (S j) Hnext) as [c' Hc'].
    pose proof (Forall_lookup_1 _ _ _ _ Hall Hc') as Hlen'.
    rewrite (Hwin _ _ Hc'), length_take, length_drop in Hlen'.
    rewrite (Hwin _ _ Hj), length_take, length_drop. cbn in Hlen'. lia.
Qed.

Lemma make_batches_windows_witness :
  make_batches 3 [1; 2; 3; 4; 5; 6; 7]%nat = Some [[1; 2; 3]; [4; 5; 6]; [7]]%nat
  ∧ ∀ j c, [[1; 2; 3]; [4; 5; 6]; [7]]%nat !! j = Some c →
           (S j < 3)%nat → length c = 3%nat.
Proof.
  split; [reflexivity|]. intros j c Hj Hnext.
  destruct (make_batches_windows 3 [1; 2; 3; 4; 5; 6; 7]%nat
              [[1; 2; 3]; [4; 5; 6]; [7]]%nat) as [_ Hwin];
    [lia | reflexivity |].
  by apply (Hwin j c Hj).
Defined.

Lemma make_batches_single {A} (size : nat) (l : list A) :
  (0 < length l ≤ size)%nat → make_batches size l = Some [l].
Proof.
  intros Hl.
  destruct (make_batches_spec size l) as (cs & Hcs & Hcat & _ & Hlen); [lia|].
  rewrite ceil_div_step in Hlen by lia.
  replace (length l - size)%nat with 0%nat in Hlen by lia.
  rewrite ceil_div_0 in Hlen.
  destruct cs as [|c [|c' cs]]; [done| |done].
  cbn in Hcat. rewrite app_nil_r in Hcat. by subst.
Qed.

Section SmallInputs.
Variable config : Config.
Variable server : Server.

(** X13.  With an empty list [getTrackDetails] and [addTracksToPlaylist]
    send nothing to the resource API: after the pre-flight check they
    return at once (an empty list, respectively nothing).  With 1 to 50 ids
    [getTrackDetails] makes a single retried request whose path lists all
    the ids, in order, separated by commas. *)
Theorem empty_and_single_batch (playlistId : string)
    (trackIds : list string) (w w1 : World) :
  ensureValidToken config server w = (Return tt, w1) →
  getTrackDetails config server [] w = (Return [], w1)
  ∧ addTracksToPlaylist config server playlistId [] w = (Return tt, w1)
  ∧ ((0 < length trackIds ≤ 50)%nat →
     ∃ n, (1 ≤ n ≤ 4)%nat
          ∧ api_calls (history (getTrackDetails config server trackIds w).2)
            = api_calls (history w1)
              ++ replicate n
                   (with_bearer (tokens w1)
                      (get_request ("/tracks?ids=" +:+ join "," trackIds)))).
Proof.
  intros Hens. split_and!.
  - unfold getTrackDetails, bind. by rewrite Hens.
  - unfold addTracksToPlaylist, bind. by rewrite Hens.
  - intros Hlen.
    rewrite (getTrackDetails_unfold config server trackIds w [trackIds] w1)
      by (by apply make_batches_single || done).
    cbn [for_of]. unfold bind at 1, collect_tracks at 1. unfold bind at 1.
    destruct (retryWithBackoff
                (httpClient_get server ("/tracks?ids=" +:+ join "," trackIds))
                no_options w1) as [o w2] eqn:Hrun.
    rewrite httpClient_get_send in Hrun.
    apply retry_send_calls in Hrun as (_ & _ & n & Hn & Hcalls).
    exists n. split; [done|].
    by destruct o as [[page|tracks|raw|i]|e|]; cbn.
Qed.

End SmallInputs.

Lemma empty_and_single_batch_witness :
  getTrackDetails test_config catalog_server [] valid_session
  = (Return [], valid_session)
  ∧ addTracksToPlaylist test_config catalog_server "PL" [] valid_session
    = (Return tt, valid_session)
  ∧ ∃ n, (1 ≤ n ≤ 4)%nat
         ∧ map url (api_calls (history (getTrackDetails test_config
                                          catalog_server ["a"; "b"; "c"]
                                          valid_session).2))
           = replicate n "/tracks?ids=a,b,c".
Proof.
  destruct (empty_and_single_batch test_config catalog_server "PL"
              ["a"; "b"; "c"] valid_session valid_session eq_refl)
    as (Hget & Hadd & Hone).
  split_and!; [exact Hget | exact Hadd |].
  destruct Hone as (n & Hn & Hcalls); [cbn; lia|].
  exists n. split; [exact Hn|]. rewrite Hcalls. cbn [api_calls valid_session].
  change (api_calls (history valid_session)) with (@nil ApiRequest).
  rewrite app_nil_l. apply (fmap_replicate url).
Defined.

(** ** More on pagination *)

Section PaginationEdges.
Variable config : Config.
Variable server : Server.

Lemma likedSongs_loop_followed u w pages u' w' :
  pages_followed
    (λ u, retryWithBackoff (httpClient_get server u) no_options)
    u w pages u' w' →
  truthy u = true →
  truthy u' = true
  ∧ ∀ fuel acc,
      likedSongs_loop server (length pages + fuel) (Some u) acc w
      = likedSongs_loop server fuel (Some u') (acc ++ tracks_of pages) w'.
Proof.
  induction 1 as [u w | u w p w1 u1 ps u' w' Hfetch Hnext Hu1 Hrest IH];
    intros Hu.
  - split; [done|]. intros fuel acc. unfold tracks_of. cbn.
    by rewrite app_nil_r.
  - destruct (IH Hu1) as [Hu' Hloop]. split; [done|]. intros fuel acc.
    cbn [length Nat.add likedSongs_loop]. rewrite Hu. unfold bind at 1.
    rewrite Hfetch.
    change (match next p with
            | Some n =>
                if truthy n
                then Some (remove_first "https://api.spotify.com/v1" n)
                else None
            | None => None
            end) with (next_url p).
    rewrite Hnext, Hloop. unfold tracks_of. cbn. by rewrite app_assoc.
Qed.

(** X14.  When the retried request of a later page fails, [getLikedSongs]
    throws that failure and the tracks of the pages fetched so far are
    lost; the same happens, with a [TypeError], when the body received is
    not a page.  Nothing is requested afterwards. *)
Theorem getLikedSongs_fails_on_a_later_page (fuel : nat) (w w1 : World)
    (pages : list Page) (u' : string) (w' w'' : World) :
  ensureValidToken config server w = (Return tt, w1) →
  pages_followed
    (λ u, retryWithBackoff (httpClient_get server u) no_options)
    "/me/tracks?limit=50" w1 pages u' w' →
  (length pages < fuel)%nat →
  (∀ e, retryWithBackoff (httpClient_get server u') no_options w'
        = (Throw e, w'') →
     getLikedSongs config server fuel w = (Throw e, w''))
  ∧ (∀ d, retryWithBackoff (httpClient_get server u') no_options w'
          = (Return d, w'') →
     (∀ p, d ≠ DPage p) →
     getLikedSongs config server fuel w = (Throw TypeError, w'')).
Proof.
  intros Hens Hpages Hfuel.
  destruct (likedSongs_loop_followed _ _ _ _ _ Hpages eq_refl) as [Hu' Hloop].
  assert (Hrun : getLikedSongs config server fuel w
                 = likedSongs_loop server (fuel - length pages) (Some u')
                     ([] ++ tracks_of pages) w').
  { unfold getLikedSongs, bind at 1. rewrite Hens, <- Hloop.
    f_equal. lia. }
  rewrite Hrun.
  destruct (fuel - length pages)%nat as [|f] eqn:Hf; [lia|].
  cbn [likedSongs_loop]. rewrite Hu'. unfold bind at 1 2. split.
  - by intros e ->.
  - intros d -> Hd. destruct d as [p|tracks|raw|i]; [by destruct (Hd p)|done..].
Qed.

(** X15.  A page whose [next] is [null], the empty string or exactly the
    API origin ends the pagination: [getLikedSongs] returns the tracks
    collected so far followed by the tracks of that page, and requests
    nothing more. *)
Theorem getLikedSongs_stops_on_falsy_cursor (fuel : nat) (w w1 : World)
    (pages : list Page) (u' : string) (w' : World) (p : Page) (w'' : World) :
  ensureValidToken config server w = (Return tt, w1) →
  pages_followed
    (λ u, retryWithBackoff (httpClient_get server u) no_options)
    "/me/tracks?limit=50" w1 pages u' w' →
  (length pages < fuel)%nat →
  retryWithBackoff (httpClient_get server u') no_options w'
  = (Return (DPage p), w'') →
  next p = None ∨ next p = Some ""
  ∨ next p = Some "https://api.spotify.com/v1" →
  getLikedSongs config server fuel w
  = (Return (tracks_of (pages ++ [p])), w'').
Proof.
  intros Hens Hpages Hfuel Hfetch Hnext.
  destruct (likedSongs_loop_followed _ _ _ _ _ Hpages eq_refl) as [Hu' Hloop].
  assert (Hrun : getLikedSongs config server fuel w
                 = likedSongs_loop server (fuel - length pages) (Some u')
                     ([] ++ tracks_of pages) w').
  { unfold getLikedSongs, bind at 1. rewrite Hens, <- Hloop.
    f_equal. lia. }
  rewrite Hrun.
  destruct (fuel - length pages)%nat as [|f] eqn:Hf; [lia|].
  cbn [likedSongs_loop]. rewrite Hu'. unfold bind at 1. rewrite Hfetch.
  assert (Htracks : tracks_of (pages ++ [p])
                    = ([] ++ tracks_of pages) ++ map track (items p)).
  { unfold tracks_of. rewrite map_app, concat_app. cbn.
    by rewrite app_nil_r. }
  rewrite Htracks.
  destruct Hnext as [-> | [-> | ->]]; cbn; by destruct f.
Qed.

(** X16.  The loop has no bound and no cycle detection: against a server
    whose every page carries a usable [next] cursor, [getLikedSongs] keeps
    requesting pages, one more for every further iteration it is allowed,
    and never returns. *)
Theorem getLikedSongs_follows_cursors_forever (w w1 : World) :
  ensureValidToken config server w = (Return tt, w1) →
  (∀ h q, ∃ p u, outcome (api server h q) = Resolved (DPage p)
                 ∧ next_url p = Some u ∧ truthy u = true) →
  ∀ fuel, ∃ w',
    getLikedSongs config server fuel w = (OutOfFuel, w')
    ∧ length (api_calls (history w'))
      = (length (api_calls (history w1)) + fuel)%nat.
Proof.
  intros Hens Hserver fuel.
  assert (Hloop : ∀ fuel u acc w0, truthy u = true →
    ∃ w', likedSongs_loop server fuel (Some u) acc w0 = (OutOfFuel, w')
          ∧ length (api_calls (history w'))
            = (length (api_calls (history w0)) + fuel)%nat).
  { clear fuel. induction fuel as [|fuel IH]; intros u acc w0 Hu;
      cbn [likedSongs_loop]; rewrite Hu.
    - exists w0. split; [done | lia].
    - destruct (send_run server (get_request u) w0)
        as (o & Hsend & _ & Hres & _).
      destruct (Hserver (history w0) (with_bearer (tokens w0) (get_request u)))
        as (p & u1 & Hp & Hnext & Hu1).
      rewrite (Hres _ Hp) in Hsend.
      apply (retry_first_success _ no_options) in Hsend.
      unfold bind at 1. rewrite httpClient_get_send, Hsend.
      change (match next p with
              | Some n =>
                  if truthy n
                  then Some (remove_first "https://api.spotify.com/v1" n)
                  else None
              | None => None
              end) with (next_url p).
      rewrite Hnext.
      match goal with |- context [likedSongs_loop _ _ _ ?a ?u0] =>
        destruct (IH u1 a u0 Hu1) as (w' & Hrun & Hlen) end.
      exists w'. split; [done|]. rewrite Hlen. cbn.
      rewrite api_calls_snoc_call, length_app. cbn. lia. }
  unfold getLikedSongs, bind at 1. rewrite Hens. by apply Hloop.
Qed.

End PaginationEdges.

Lemma getLikedSongs_fails_on_a_later_page_witness :
  (getLikedSongs test_config failing_second_page 2 valid_session).1
  = Throw (classify server_error)
  ∧ length (api_calls (history (getLikedSongs test_config failing_second_page
                                  2 valid_session).2)) = 5%nat.
Proof.
  pose (fetch := λ u, retryWithBackoff
                        (httpClient_get failing_second_page u) no_options).
  pose (w1 := (fetch "/me/tracks?limit=50" valid_session).2).
  pose (w2 := (fetch "/me/tracks?offset=2&limit=50" w1).2).
  destruct (getLikedSongs_fails_on_a_later_page test_config
              failing_second_page 2 valid_session valid_session [page1]
              "/me/tracks?offset=2&limit=50" w1 w2 eq_refl) as [Hthrow _].
  - apply (followed_cons fetch "/me/tracks?limit=50" valid_session page1 w1
             "/me/tracks?offset=2&limit=50" []
             "/me/tracks?offset=2&limit=50" w1);
      [by vm_compute | by vm_compute | done | apply followed_nil].
  - cbn. lia.
  - rewrite (Hthrow (classify server_error)) by (by vm_compute).
    split; [done | by vm_compute].
Defined.

Lemma getLikedSongs_stops_on_falsy_cursor_witness :
  (getLikedSongs test_config origin_page_server 1 valid_session).1
  = Return [track (saved "9")]
  ∧ length (api_calls (history (getLikedSongs test_config origin_page_server
                                  1 valid_session).2)) = 1%nat.
Proof.
  pose (w1 := (retryWithBackoff
                 (httpClient_get origin_page_server "/me/tracks?limit=50")
                 no_options valid_session).2).
  rewrite (getLikedSongs_stops_on_falsy_cursor test_config origin_page_server
             1 valid_session valid_session [] "/me/tracks?limit=50"
             valid_session origin_page w1 eq_refl);
    [split; [done | by vm_compute] | apply followed_nil | cbn; lia
    | by vm_compute | right; right; reflexivity].
Defined.

Lemma getLikedSongs_follows_cursors_forever_witness :
  ∃ w',
    getLikedSongs test_config cyclic_server 3 valid_session = (OutOfFuel, w')
    ∧ length (api_calls (history w')) = 3%nat.
Proof.
  destruct (getLikedSongs_follows_cursors_forever test_config cyclic_server
              valid_session valid_session eq_refl) with (fuel := 3%nat)
    as (w' & Hrun & Hlen).
  - intros h q. exists page1, "/me/tracks?offset=2&limit=50".
    split_and!; [reflexivity | by vm_compute | reflexivity].
  - exists w'. split; [exact Hrun | exact Hlen].
Defined.

(** ** Creating a playlist *)

Section CreatePlaylistProofs.
Variable config : Config.
Variable server : Server.

(** What a retried request ends with is an answer of the server to that
    very request: the body of a response, or the classified rejection. *)
Lemma retry_run_send_answer req p i w r n ds :
  retry_run (send server req) p i w r n ds →
  ∃ h,
    match r.1 with
    | Return d =>
        outcome (api server h (with_bearer (tokens w) req)) = Resolved d
    | Throw e =>
        ∃ ax, outcome (api server h (with_bearer (tokens w) req))
              = Rejected ax
              ∧ e = classify ax
    | OutOfFuel => False
    end.
Proof.
  induction 1 as [i w v w' Hop | w e w' Hop | i w e w' r n ds Hi Hop Hrun IH
                 | i w w' Hop];
    destruct (send_run server req w) as (o & Hsend & Hfuel & Hres & Hrej);
    rewrite Hsend in Hop.
  - exists (history w). cbn.
    destruct (outcome _) as [d|ax];
      [rewrite (Hres d eq_refl) in Hop | rewrite (Hrej ax eq_refl) in Hop];
      congruence.
  - exists (history w). cbn.
    destruct (outcome _) as [d|ax];
      [rewrite (Hres d eq_refl) in Hop | rewrite (Hrej ax eq_refl) in Hop];
      [congruence|].
    exists ax. split; [done | congruence].
  - injection Hop as -> <-. exact IH.
  - injection Hop as -> _. done.
Qed.

Lemma retry_send_answer req options w o w' :
  retryWithBackoff (send server req) options w = (o, w') →
  ∃ h,
    match o with
    | Return d =>
        outcome (api server h (with_bearer (tokens w) req)) = Resolved d
    | Throw e =>
        ∃ ax, outcome (api server h (with_bearer (tokens w) req))
              = Rejected ax
              ∧ e = classify ax
    | OutOfFuel => False
    end.
Proof.
  intros Hrun. unfold retryWithBackoff in Hrun.
  destruct (retry_loop_run (send server req) (policy_of options)
              (S (p_maxRetries (policy_of options))) 0 None w)
    as (n & ds & Hr & _); [lia | lia |].
  rewrite Hrun in Hr. by apply retry_run_send_answer in Hr.
Qed.

Lemma createPlaylist_unfold request w w1 d w2 :
  ensureValidToken config server w = (Return tt, w1) →
  httpClient_get server "/me" w1 = (Return d, w2) →
  createPlaylist config server request w
  = retryWithBackoff
      (send server
         (playlist_request
            ("/users/" +:+ default "undefined" (data_id d) +:+ "/playlists")
            {| PlaylistBody.name := CreatePlaylistRequest.name request;
               PlaylistBody.description :=
                 CreatePlaylistRequest.description request;
               PlaylistBody.public :=
                 default false (CreatePlaylistRequest.public request);
               PlaylistBody.collaborative :=
                 default false
                   (CreatePlaylistRequest.collaborative request) |}))
      no_options w2.
Proof.
  intros Hens Hget. unfold createPlaylist, bind at 1. rewrite Hens.
  unfold bind at 1. rewrite Hget. unfold bind, ret.
  change (httpClient_post_playlist server ?path ?b)
    with (send server (playlist_request path b)).
  by destruct (retryWithBackoff _ _ _) as [[?|?|] ?].
Qed.

(** X17.  [createPlaylist] asks for "/me" exactly once, without retry, with
    the bearer of the stored snapshot: when the pre-flight check fails, or
    when that request is rejected, the failure (for the request: the
    classified rejection) is thrown and no playlist is posted.  Otherwise
    it posts to "/users/<id>/playlists", between 1 and 4 times, with the
    same bearer and with a body holding the caller's name and description
    and [public] and [collaborative], false unless given.  The [id] is the
    one of the "/me" response; a response without [id] is not detected, the
    post then goes to "/users/undefined/playlists".  The method returns the
    body of the server's answer to the post, at the first attempt when that
    one is answered; when it throws, all 4 attempts were made and the error
    is the classified rejection of the post. *)
Theorem createPlaylist_spec (request : CreatePlaylistRequest.t) (w : World) :
  let body :=
    {| PlaylistBody.name := CreatePlaylistRequest.name request;
       PlaylistBody.description := CreatePlaylistRequest.description request;
       PlaylistBody.public :=
         match CreatePlaylistRequest.public request with
         | Some flag => flag
         | None => false
         end;
       PlaylistBody.collaborative :=
         match CreatePlaylistRequest.collaborative request with
         | Some flag => flag
         | None => false
         end |} in
  (∀ e w1, ensureValidToken config server w = (Throw e, w1) →
     createPlaylist config server request w = (Throw e, w1))
  ∧ (∀ w1, ensureValidToken config server w = (Return tt, w1) →
     let me := with_bearer (tokens w1) (get_request "/me") in
     (∀ ax, outcome (api server (history w1) me) = Rejected ax →
        ∃ w2,
          createPlaylist config server request w = (Throw (classify ax), w2)
          ∧ api_calls (history w2) = api_calls (history w1) ++ [me]
          ∧ tokens w2 = tokens w1)
     ∧ (∀ d, outcome (api server (history w1) me) = Resolved d →
        let userId :=
          match d with
          | DProfile (Some i) => i
          | _ => "undefined"
          end in
        let post :=
          with_bearer (tokens w1)
            (playlist_request ("/users/" +:+ userId +:+ "/playlists") body) in
        ∃ n o w3,
          createPlaylist config server request w = (o, w3)
          ∧ o ≠ OutOfFuel
          ∧ (1 ≤ n ≤ 4)%nat
          ∧ api_calls (history w3)
            = api_calls (history w1) ++ me :: replicate n post
          ∧ tokens w3 = tokens w1
          ∧ (∀ r, outcome (api server (history w1 ++ [ApiCall me]) post)
                  = Resolved r →
               o = Return r ∧ n = 1%nat)
          ∧ (∀ r, o = Return r →
               ∃ h, outcome (api server h post) = Resolved r)
          ∧ (∀ e, o = Throw e →
               n = 4%nat
               ∧ ∃ h ax, outcome (api server h post) = Rejected ax
                         ∧ e = classify ax))).
Proof.
  intros body. split.
  - intros e w1 Hens. unfold createPlaylist, bind. by rewrite Hens.
  - intros w1 Hens me.
    destruct (send_run server (get_request "/me") w1)
      as (o1 & Hsend & _ & Hres & Hrej).
    rewrite <- httpClient_get_send in Hsend. fold me in Hsend, Hres, Hrej.
    split.
    + intros ax Hax. eexists. split_and!.
      * unfold createPlaylist, bind at 1. rewrite Hens.
        unfold bind at 1. rewrite Hsend. by rewrite (Hrej ax Hax).
      * cbn. by rewrite api_calls_snoc_call.
      * done.
    + intros d Hd userId post.
      rewrite (Hres d Hd) in Hsend.
      rewrite (createPlaylist_unfold request w w1 d _ Hens Hsend).
      assert (Hid : default "undefined" (data_id d) = userId).
      { subst userId. by destruct d as [page|tracks|raw|[i|]]. }
      rewrite Hid.
      change {| PlaylistBody.name := CreatePlaylistRequest.name request;
                PlaylistBody.description := _; PlaylistBody.public := _;
                PlaylistBody.collaborative := _ |} with body.
      set (q := playlist_request ("/users/" +:+ userId +:+ "/playlists")
                  body).
      set (w2 := {| tokens := tokens w1; now := _;
                    history := history w1 ++ [ApiCall me] |}).
      destruct (retryWithBackoff (send server q) no_options w2)
        as [o w3] eqn:Hpost.
      pose proof (retry_send_answer _ _ _ _ _ Hpost) as [h Hanswer].
      pose proof (retry_send_calls _ _ _ _ _ _ Hpost)
        as (Htok & Hne & n & Hn & Hcalls).
      change (with_bearer (tokens w2) q) with post in Hanswer, Hcalls.
      assert (Hwire : api_calls (history w3)
                      = api_calls (history w1) ++ me :: replicate n post).
      { rewrite Hcalls. cbn. rewrite api_calls_snoc_call.
        by rewrite <- app_assoc. }
      exists n, o, w3.
      split_and!; [done | done | apply Hn | apply Hn | done | done | | |].
      * intros r Hr.
        destruct (send_run server q w2) as (o2 & Hsend2 & _ & Hres2 & _).
        change (with_bearer (tokens w2) q) with post in Hsend2, Hres2.
        rewrite (Hres2 r Hr) in Hsend2.
        rewrite (retry_first_success _ no_options _ _ _ Hsend2) in Hpost.
        injection Hpost as <- <-. split; [done|].
        cbn in Hcalls. rewrite api_calls_snoc_call in Hcalls.
        apply app_inv_head in Hcalls.
        apply (f_equal length) in Hcalls.
        rewrite length_replicate in Hcalls. cbn in Hcalls. lia.
      * intros r ->. by exists h.
      * intros e ->. destruct Hanswer as (ax & Hax & ->).
        split; [|by exists h, ax].
        apply retry_send_throw_calls in Hpost as (_ & Hcalls4).
        change (with_bearer (tokens w2) q) with post in Hcalls4.
        rewrite Hcalls in Hcalls4. apply app_inv_head in Hcalls4.
        apply (f_equal length) in Hcalls4.
        rewrite !length_replicate in Hcalls4. exact Hcalls4.
Qed.

End CreatePlaylistProofs.

Lemma createPlaylist_spec_witness :
  (createPlaylist test_config (me_server (DProfile (Some "user42")))
     party_request valid_session).1
  = Return (DOther "/users/user42/playlists")
  ∧ (createPlaylist test_config (me_server (DProfile None)) party_request
       valid_session).1
    = Return (DOther "/users/undefined/playlists")
  ∧ ∃ w2,
      createPlaylist test_config two_page_server party_request valid_session
      = (Throw (classify not_found), w2)
      ∧ length (api_calls (history w2)) = 1%nat.
Proof.
  split_and!.
  - destruct (createPlaylist_spec test_config
                (me_server (DProfile (Some "user42"))) party_request
                valid_session) as [_ Hrun].
    destruct (Hrun valid_session eq_refl) as [_ Hres].
    destruct (Hres (DProfile (Some "user42")) eq_refl)
      as (n & o & w3 & Hcp & _ & _ & _ & _ & Hfirst & _).
    destruct (Hfirst (DOther "/users/user42/playlists")) as [-> _];
      [by vm_compute|].
    by rewrite Hcp.
  - destruct (createPlaylist_spec test_config (me_server (DProfile None))
                party_request valid_session) as [_ Hrun].
    destruct (Hrun valid_session eq_refl) as [_ Hres].
    destruct (Hres (DProfile None) eq_refl)
      as (n & o & w3 & Hcp & _ & _ & _ & _ & Hfirst & _).
    destruct (Hfirst (DOther "/users/undefined/playlists")) as [-> _];
      [by vm_compute|].
    by rewrite Hcp.
  - destruct (createPlaylist_spec test_config two_page_server party_request
                valid_session) as [_ Hrun].
    destruct (Hrun valid_session eq_refl) as [Hrej _].
    destruct (Hrej not_found) as (w2 & Hcp & Hcalls & _); [by vm_compute|].
    exists w2. split; [exact Hcp|]. by rewrite Hcalls.
Defined.

(** ** Reading back the ids and the query string *)

Lemma split_on_free sep a :
  has_char sep a = false → split_on sep a = [a].
Proof.
  induction a as [|c a IH]; [done|]. cbn.
  destruct (Ascii.eqb c sep); [done|]. cbn. intros Ha. by rewrite IH.
Qed.

Lemma split_on_app sep a b :
  has_char sep a = false →
  split_on sep (a +:+ String sep b) = a :: split_on sep b.
Proof.
  induction a as [|c a IH]; intros Ha.
  - change (EmptyString +:+ String sep b) with (String sep b). cbn.
    by rewrite Ascii.eqb_refl.
  - change (String c a +:+ String sep b)
      with (String c (a +:+ String sep b)).
    cbn in Ha |- *. destruct (Ascii.eqb c sep); [done|].
    cbn in Ha. by rewrite IH.
Qed.

Lemma split_on_concat sep l :
  l ≠ [] → Forall (λ s, has_char sep s = false) l →
  split_on sep (String.concat (String sep EmptyString) l) = l.
Proof.
  induction l as [|a [|b l] IH]; intros Hne Hall; [done| |].
  - cbn. apply split_on_free. by inversion Hall.
  - change (String.concat (String sep EmptyString) (a :: b :: l))
      with (a +:+ String sep EmptyString
              +:+ String.concat (String sep EmptyString) (b :: l)).
    change (String sep EmptyString +:+ ?x) with (String sep x).
    inversion Hall as [|? ? Ha Hrest]; subst.
    rewrite split_on_app by done. f_equal. by apply IH.
Qed.

(** X18.  The ids of a batch can be read back from the path of its
    request by splitting the [ids] value at the commas, provided the batch
    is not empty and no id contains a comma.  Ids are not escaped: one id
    with a comma in it gives the same path as two ids. *)
Theorem track_ids_read_back (batch : list string) :
  (batch ≠ [] → Forall (λ i, has_char "," i = false) batch →
   ∃ path, path = "/tracks?ids=" +:+ join "," batch
           ∧ String.prefix "/tracks?ids=" path = true
           ∧ split_on ","
               (String.substring 12 (String.length path - 12) path)
             = batch)
  ∧ "/tracks?ids=" +:+ join "," ["a,b"]
    = "/tracks?ids=" +:+ join "," ["a"; "b"].
Proof.
  split; [|reflexivity]. intros Hne Hall. eexists. split; [reflexivity|].
  unfold String.append at 1 2 3. cbn -[split_on join].
  split; [by destruct (join "," batch)|].
  rewrite Nat.sub_0_r, substring_all. by apply split_on_concat.
Qed.

Lemma track_ids_read_back_witness :
  split_on ","
    (String.substring 12
       (String.length ("/tracks?ids=" +:+ join "," ["4uLU6hMC"; "0eGsygTp"])
        - 12)
       ("/tracks?ids=" +:+ join "," ["4uLU6hMC"; "0eGsygTp"]))
  = ["4uLU6hMC"; "0eGsygTp"].
Proof.
  destruct (track_ids_read_back ["4uLU6hMC"; "0eGsygTp"]) as [Hback _].
  destruct Hback as (path & -> & _ & Hsplit);
    [done | by repeat constructor | exact Hsplit].
Defined.

Lemma has_char_app c a b :
  has_char c (a +:+ b) = has_char c a || has_char c b.
Proof.
  induction a as [|x a IH]; [done|].
  change (String x a +:+ b) with (String x (a +:+ b)). cbn.
  by rewrite IH, orb_assoc.
Qed.

Lemma form_safe_neq c x :
  form_safe c = true → form_safe x = false → Ascii.eqb c x = false.
Proof.
  intros Hc Hx. destruct (Ascii.eqb_spec c x) as [->|]; [congruence | done].
Qed.

Lemma hex_digit_spec k :
  (k < 16)%nat →
  hex_value (hex_digit k) = Some k
  ∧ Ascii.eqb (hex_digit k) "&" = false
  ∧ Ascii.eqb (hex_digit k) "=" = false.
Proof.
  intros Hk. do 16 (destruct k as [|k]; [by vm_compute|]). lia.
Qed.

(** The encoding of one character: it holds neither "&" nor "=", and
    decoding gives the character back. *)
Lemma form_encode_cons c s :
  ∃ e, form_encode (String c s) = e +:+ form_encode s
       ∧ has_char "&" e = false ∧ has_char "=" e = false
       ∧ ∀ t, form_decode (e +:+ t) = String c (form_decode t).
Proof.
  cbn [form_encode]. destruct (form_safe c) eqn:Hsafe.
  - exists (String c EmptyString). split; [done|].
    cbn [has_char]. rewrite !(form_safe_neq c) by done.
    split_and!; [done | done |]. intros t.
    change (String c EmptyString +:+ t) with (String c t).
    cbn [form_decode]. by rewrite !(form_safe_neq c) by done.
  - destruct (Nat.eqb_spec (Ascii.nat_of_ascii c) 32) as [H32|Hne].
    + exists (String "+" EmptyString). split; [done|].
      split_and!; [done | done |]. intros t.
      change (String "+" EmptyString +:+ t) with (String "+"%char t).
      cbn [form_decode]. cbn [Ascii.eqb Bool.eqb]. f_equal.
      rewrite <- (Ascii.ascii_nat_embedding c), H32. done.
    + pose proof (Ascii.nat_ascii_bounded c) as Hbound.
      set (n := Ascii.nat_of_ascii c) in *.
      assert (Hhi : (n / 16 < 16)%nat)
        by (apply Nat.Div0.div_lt_upper_bound; lia).
      assert (Hlo : (n mod 16 < 16)%nat) by (apply Nat.mod_upper_bound; lia).
      destruct (hex_digit_spec _ Hhi) as (Hv1 & Ha1 & He1).
      destruct (hex_digit_spec _ Hlo) as (Hv2 & Ha2 & He2).
      exists (String "%" (String (hex_digit (n / 16))
                (String (hex_digit (n mod 16)) EmptyString))).
      split; [done|]. cbn [has_char]. rewrite Ha1, Ha2, He1, He2.
      split_and!; [done | done |]. intros t.
      change (String "%" (String (hex_digit (n / 16))
                (String (hex_digit (n mod 16)) EmptyString)) +:+ t)
        with (String "%"%char (String (hex_digit (n / 16))
                (String (hex_digit (n mod 16)) t))).
      cbn [form_decode]. rewrite Hv1, Hv2.
      cbn [Ascii.eqb Bool.eqb]. f_equal.
      rewrite <- (Nat.div_mod_eq n 16). apply Ascii.ascii_nat_embedding.
Qed.

Lemma form_encode_free s :
  has_char "&" (form_encode s) = false ∧ has_char "=" (form_encode s) = false.
Proof.
  induction s as [|c s [IH1 IH2]]; [done|].
  destruct (form_encode_cons c s) as (e & -> & H1 & H2 & _).
  by rewrite !has_char_app, H1, H2, IH1, IH2.
Qed.

Lemma form_decode_encode s : form_decode (form_encode s) = s.
Proof.
  induction s as [|c s IH]; [done|].
  destruct (form_encode_cons c s) as (e & -> & _ & _ & Hdec).
  by rewrite Hdec, IH.
Qed.

Lemma break_at_app sep a b :
  has_char sep a = false → break_at sep (a +:+ String sep b) = (a, b).
Proof.
  induction a as [|c a IH]; intros Ha.
  - change (EmptyString +:+ String sep b) with (String sep b). cbn.
    by rewrite Ascii.eqb_refl.
  - change (String c a +:+ String sep b)
      with (String c (a +:+ String sep b)).
    cbn in Ha |- *. destruct (Ascii.eqb c sep); [done|].
    cbn in Ha. by rewrite IH.
Qed.

(** Parsing a serialized parameter list gives the list back. *)
Lemma parse_query_toString (params : list (string * string)) :
  parse_query (URLSearchParams_toString params) = params.
Proof.
  destruct params as [|kv params]; [done|].
  unfold URLSearchParams_toString, join.
  set (piece := λ kv : string * string,
                  form_encode kv.1 +:+ "=" +:+ form_encode kv.2).
  assert (Hfree : ∀ kv, has_char "&" (piece kv) = false).
  { intros [k v]. unfold piece. cbn [fst snd].
    destruct (form_encode_free k) as [Hk _].
    destruct (form_encode_free v) as [Hv _].
    rewrite has_char_app, Hk.
    change ("=" +:+ form_encode v) with (String "="%char (form_encode v)).
    cbn. by rewrite Hv. }
  assert (Hpiece : ∀ kv, (let (k, v) := break_at "=" (piece kv) in
                          (form_decode k, form_decode v)) = kv).
  { intros [k v]. unfold piece. cbn [fst snd].
    change ("=" +:+ form_encode v) with (String "="%char (form_encode v)).
    rewrite break_at_app by apply form_encode_free.
    by rewrite !form_decode_encode. }
  assert (Hsplit : split_on "&" (String.concat "&" (map piece (kv :: params)))
                   = map piece (kv :: params)).
  { apply split_on_concat; [done|]. apply Forall_forall.
    intros x (kv' & -> & _)%list_elem_of_fmap. apply Hfree. }
  unfold parse_query.
  destruct (String.concat "&" (map piece (kv :: params))) as [|c q] eqn:Hq.
  - exfalso. clear Hsplit. cbn [map] in Hq.
    assert (Hhas : has_char "=" (String.concat "&"
                                   (piece kv :: map piece params)) = true).
    { destruct (map piece params) as [|x l]; cbn [String.concat];
        unfold piece; destruct kv as [k v]; cbn [fst snd];
        rewrite !has_char_app;
        change ("=" +:+ form_encode v) with (String "="%char (form_encode v));
        cbn; by rewrite orb_true_r. }
    by rewrite Hq in Hhas.
  - rewrite Hsplit, map_map. clear Hq Hsplit.
    induction (kv :: params) as [|x l IH]; [done|].
    cbn [map]. by rewrite Hpiece, IH.
Qed.

(** X19.  The query string of the authorization URL, parsed by the
    form-urlencoded rules (split at "&", then at the first "=", then
    decode "+" and percent escapes), gives back exactly the parameters
    [client_id], [response_type], [redirect_uri], [scope] and, for a
    non-empty argument, [state], each with its original value: whatever
    characters the client id, the redirect URI or the state hold, they
    cannot add, remove or alter a parameter. *)
Theorem generateAuthUrl_query_reads_back (config : Config)
    (state : option string) (w : World) :
  ∃ query,
    generateAuthUrl config state w
    = (Return ("https://accounts.spotify.com/authorize?" +:+ query), w)
    ∧ has_char "&" (form_encode (default "" state)) = false
    ∧ parse_query query
      = [("client_id", clientId (spotify config));
         ("response_type", "code");
         ("redirect_uri", redirectUri (spotify config));
         ("scope",
          "user-library-read playlist-modify-public playlist-modify-private")]
        ++ match state with
           | Some s => if decide (s = "") then [] else [("state", s)]
           | None => []
           end.
Proof.
  eexists. split_and!; [reflexivity | apply form_encode_free |].
  rewrite parse_query_toString. unfold authUrl_params. f_equal.
  destruct state as [[|c s]|]; done.
Qed.

(** ** Removing the origin from a cursor *)

Lemma length_string_app a b :
  String.length (a +:+ b) = (String.length a + String.length b)%nat.
Proof.
  induction a as [|c a IH]; [done|].
  change (String c a +:+ b) with (String c (a +:+ b)). cbn. by rewrite IH.
Qed.

Lemma prefix_iff p s :
  String.prefix p s = true ↔ ∃ b, s = p +:+ b.
Proof.
  revert s. induction p as [|c p IH]; intros s.
  - split; [intros _; by exists s | by destruct s].
  - destruct s as [|x s]; cbn.
    + split; [done | by intros [b [=]]].
    + destruct (Ascii.ascii_dec c x) as [->|Hne].
      * rewrite IH. split; intros [b Hb]; exists b.
        -- by rewrite Hb.
        -- change (String x p +:+ b) with (String x (p +:+ b)) in Hb.
           by injection Hb.
      * split; [done|]. intros [b Hb].
        change (String c p +:+ b) with (String c (p +:+ b)) in Hb.
        by injection Hb as -> _.
Qed.

Lemma substring_drop_prefix p b :
  String.substring (String.length p)
    (String.length (p +:+ b) - String.length p) (p +:+ b) = b.
Proof.
  rewrite length_string_app.
  replace (String.length p + String.length b - String.length p)%nat
    with (String.length b) by lia.
  induction p as [|c p IH]; [apply substring_all|].
  change (String c p +:+ b) with (String c (p +:+ b)). by cbn.
Qed.

Lemma remove_first_unfold p s :
  remove_first p s
  = if String.prefix p s
    then String.substring (String.length p)
           (String.length s - String.length p) s
    else match s with
         | EmptyString => EmptyString
         | String c s' => String c (remove_first p s')
         end.
Proof. by destruct s. Qed.

(** X20.  [next.replace(origin, "")] removes the first occurrence of the
    origin wherever it stands, not only at the start of the cursor: a
    cursor that does not contain the origin is requested unchanged, and in
    any other cursor the leftmost occurrence alone is cut out. *)
Theorem remove_first_spec (pattern s : string) :
  ((∀ a b, s ≠ a +:+ pattern +:+ b) → remove_first pattern s = s)
  ∧ (∀ a b, s = a +:+ pattern +:+ b →
       (∀ a' b', s = a' +:+ pattern +:+ b' →
                 (String.length a ≤ String.length a')%nat) →
       remove_first pattern s = a +:+ b)
  ∧ (∀ n, n ≠ "" →
       (∀ a b, n ≠ a +:+ "https://api.spotify.com/v1" +:+ b) →
       next_url {| items := []; next := Some n |} = Some n).
Proof.
  assert (Hnone : ∀ s, (∀ a b, s ≠ a +:+ pattern +:+ b) →
                       remove_first pattern s = s).
  { clear s. induction s as [|c s IH]; intros Hno;
      rewrite remove_first_unfold.
    - destruct (String.prefix pattern "") eqn:Hp; [|done].
      apply prefix_iff in Hp as [b Hb]. by destruct (Hno "" b).
    - destruct (String.prefix pattern (String c s)) eqn:Hp.
      + apply prefix_iff in Hp as [b Hb]. by destruct (Hno "" b).
      + f_equal. apply IH. intros a b ->. by apply (Hno (String c a) b). }
  split_and!.
  - apply Hnone.
  - intros a. revert s. induction a as [|c a IH]; intros s b -> Hmin.
    + change ("" +:+ pattern +:+ b) with (pattern +:+ b).
      rewrite remove_first_unfold.
      replace (String.prefix pattern (pattern +:+ b)) with true
        by (symmetry; apply prefix_iff; by eexists).
      apply substring_drop_prefix.
    + change (String c a +:+ pattern +:+ b)
        with (String c (a +:+ pattern +:+ b)) in *.
      rewrite remove_first_unfold.
      destruct (String.prefix pattern (String c (a +:+ pattern +:+ b)))
        eqn:Hp.
      * apply prefix_iff in Hp as [b' Hb'].
        specialize (Hmin "" b' Hb'). cbn in Hmin. lia.
      * change (String c a +:+ b) with (String c (a +:+ b)). f_equal.
        apply IH; [done|]. intros a' b' Heq.
        specialize (Hmin (String c a') b').
        change (String c a' +:+ pattern +:+ b')
          with (String c (a' +:+ pattern +:+ b')) in Hmin.
        rewrite Heq in Hmin. specialize (Hmin eq_refl). cbn in Hmin. lia.
  - intros n Hn Hno. unfold next_url. cbn [next].
    destruct n as [|c n]; [done|]. cbn [truthy]. f_equal.
    clear Hnone. revert Hno. generalize (String c n). clear.
    intros s Hno. induction s as [|c s IH]; rewrite remove_first_unfold.
    + by destruct (String.prefix _ "").
    + destruct (String.prefix _ (String c s)) eqn:Hp.
      * apply prefix_iff in Hp as [b Hb]. by destruct (Hno "" b).
      * f_equal. apply IH. intros a b ->. by apply (Hno (String c a) b).
Qed.

Lemma remove_first_spec_witness :
  remove_first "ab" "xxabyyab" = "xxyyab"
  ∧ next_url {| items := []; next := Some "/me/tracks?offset=50" |}
    = Some "/me/tracks?offset=50".
Proof.
  destruct (remove_first_spec "ab" "xxabyyab") as (_ & Hfirst & _).
  split.
  - apply (Hfirst "xx" "yyab"); [reflexivity|].
    intros a' b' Heq. destruct a' as [|c1 [|c2 a']]; cbn.
    + by vm_compute in Heq.
    + revert Heq. unfold String.append. cbn. destruct b'; intros [=].
    + lia.
  - by vm_compute.
Defined.

(** ** Reading decimal numerals *)

Lemma value_after_of_uint_acc (d : Decimal.uint) (a : nat) :
  value_after (Z.of_nat a) d = Z.of_nat (Nat.of_uint_acc d a).
Proof.
  revert a. induction d as [|d IH|d IH|d IH|d IH|d IH|d IH|d IH|d IH|d IH|d IH];
    intros a; cbn [value_after Nat.of_uint_acc]; [done|..];
    rewrite Nat.tail_mul_spec, <- IH; f_equal; lia.
Qed.

Lemma digits_numeral (d : Decimal.uint) (rest : string) :
  d ≠ Decimal.Nil →
  rest = "" ∨ (∃ c r, rest = String c r ∧ digit_of c = None) →
  ∀ acc, digits (DecimalString.NilEmpty.string_of_uint d +:+ rest) acc
         = Some (value_after (default 0%Z acc) d).
Proof.
  intros Hne Hrest.
  assert (Hstop : ∀ a, digits rest (Some a) = Some a).
  { intros a. destruct Hrest as [-> | (c & r & -> & Hc)]; [done|].
    cbn. by rewrite Hc. }
  clear Hrest.
  induction d as [|d IH|d IH|d IH|d IH|d IH|d IH|d IH|d IH|d IH|d IH];
    intros acc; [done|..];
    cbn [DecimalString.NilEmpty.string_of_uint value_after];
    match goal with |- digits (String ?c ?s +:+ rest) _ = _ =>
      change (String c s +:+ rest) with (String c (s +:+ rest)) end;
    cbn [digits];
    match goal with |- context [digit_of ?c] =>
      let v := eval vm_compute in (digit_of c) in
      change (digit_of c) with v end;
    cbv beta iota;
    (destruct d; [cbn [DecimalString.NilEmpty.string_of_uint value_after];
                  change ("" +:+ rest) with rest; rewrite Hstop; f_equal; lia
                 | rewrite IH by done;
                   change (default 0%Z (Some ?x)) with x;
                   f_equal; f_equal; lia ..]).
Qed.

Lemma parseInt_digit_head (d : Decimal.uint) (rest : string) :
  d ≠ Decimal.Nil →
  parseInt (DecimalString.NilEmpty.string_of_uint d +:+ rest)
  = match digits (DecimalString.NilEmpty.string_of_uint d +:+ rest) None with
    | Some n => Int (1 * n)
    | None => NaN
    end.
Proof.
  intros Hne. destruct d; [done|..];
    cbn [DecimalString.NilEmpty.string_of_uint];
    match goal with |- context [String ?c ?s +:+ rest] =>
      change (String c s +:+ rest) with (String c (s +:+ rest)) end;
    reflexivity.
Qed.

(** X21.  [parseInt(s, 10)] reads every natural number written in decimal
    exactly (up to [2^53], where JavaScript numbers stop being exact), also
    when the numeral is followed by text that does not start with a digit:
    a [retry-after] header or a [PORT] variable holding the numeral of [n]
    gives the hint, respectively the port, [n]. *)
Theorem parseInt_reads_numerals (n : nat) (rest : string)
    (env : gmap string string) :
  (Z.of_nat n ≤ 2 ^ 53)%Z →
  rest = "" ∨ (∃ c r, rest = String c r ∧ digit_of c = None) →
  parseInt (numeral n +:+ rest) = Int (Z.of_nat n)
  ∧ classify (rate_limited (Some (numeral n +:+ rest)))
    = RateLimitError "Rate limit exceeded" (Some (Int (Z.of_nat n)))
  ∧ (∀ c, env !! "PORT" = Some (numeral n +:+ rest) →
          loadConfig env = inr c →
          Loaded.port (Loaded.server c) = Int (Z.of_nat n)).
Proof.
  intros _ Hrest.
  assert (Hnil : Nat.to_uint n ≠ Decimal.Nil).
  { rewrite <- (DecimalNat.Unsigned.of_to n) at 1.
    rewrite DecimalNat.Unsigned.to_of. unfold Decimal.unorm.
    by destruct (Decimal.nzhead _). }
  assert (Hparse : parseInt (numeral n +:+ rest) = Int (Z.of_nat n)).
  { unfold numeral. rewrite parseInt_digit_head by done.
    rewrite (digits_numeral _ rest Hnil Hrest None). cbn [default].
    change 0%Z with (Z.of_nat 0). rewrite value_after_of_uint_acc.
    fold (Nat.of_uint (Nat.to_uint n)).
    rewrite DecimalNat.Unsigned.of_to. f_equal. lia. }
  assert (Htruthy : truthy (numeral n +:+ rest) = true).
  { unfold numeral. destruct (Nat.to_uint n); done. }
  split_and!; [done | |].
  - unfold classify, rate_limited. cbn [response status headers].
    cbn [Z.eqb Pos.eqb]. rewrite lookup_singleton_eq, Htruthy.
    by rewrite Hparse.
  - intros c Hport Hc. unfold loadConfig in Hc.
    destruct (0 <? length _)%nat; [done|]. injection Hc as <-. cbn.
    rewrite Hport. unfold or_else. by rewrite Htruthy.
Qed.

Lemma parseInt_reads_numerals_witness :
  parseInt "3000" = Int 3000
  ∧ parseInt "120, 60" = Int 120
  ∧ classify (rate_limited (Some "30"))
    = RateLimitError "Rate limit exceeded" (Some (Int 30)).
Proof.
  split_and!.
  - apply (parseInt_reads_numerals 3000 "" ∅); [lia | by left].
  - apply (parseInt_reads_numerals 120 ", 60" ∅); [lia|].
    right. by eexists _, _.
  - apply (parseInt_reads_numerals 30 "" ∅); [lia | by left].
Defined.

(** ** A failing chunk of [getTrackDetails] *)

(** X22.  When [getTrackDetails] throws after its pre-flight check, it
    stopped at one chunk: the chunks before it were requested in order
    (each between 1 and 4 times), the failing chunk was requested last, no
    later chunk was requested, and the tracks already collected are lost
    with the exception.  Unless the failure is the [TypeError] of a response
    without a [tracks] array, the failing chunk was attempted all 4 times. *)
Theorem getTrackDetails_stops_at_failing_chunk (config : Config)
    (server : Server) (trackIds : list string) (w w1 w' : World)
    (e : JsError) :
  ensureValidToken config server w = (Return tt, w1) →
  getTrackDetails config server trackIds w = (Throw e, w') →
  let wire := λ c : list string,
    with_bearer (tokens w1) (get_request ("/tracks?ids=" +:+ join "," c)) in
  ∃ before c rest ns n,
    make_batches 50 trackIds = Some (before ++ c :: rest)
    ∧ length ns = length before
    ∧ Forall (λ n, (1 ≤ n ≤ 4)%nat) ns
    ∧ (1 ≤ n ≤ 4)%nat
    ∧ api_calls (history w')
      = api_calls (history w1)
        ++ concat (zip_with replicate ns (map wire before))
        ++ replicate n (wire c)
    ∧ tokens w' = tokens w1
    ∧ (e ≠ TypeError → n = 4%nat).
Proof.
  intros Hens Hrun wire.
  destruct (make_batches_spec 50 trackIds) as (chunks & Hb & _); [lia|].
  rewrite (getTrackDetails_unfold config server trackIds w chunks w1 Hb Hens)
    in Hrun.
  apply for_of_collect in Hrun
    as [(tss & _ & [=])
       | (before & c & rest & tss & wk & -> & Hd & Hc)];
    [|intros c w0; apply retry_send_total].
  apply (calls_in_order_send server
           (λ c, get_request ("/tracks?ids=" +:+ join "," c)) no_options)
    in Hd as (Htok & _ & ns & Hns & Hall & Hcalls).
  fold wire in Hcalls.
  destruct Hc as [(e' & Hc & [= <-]) | (d & Hc & Hd & [= ->])].
  - apply retry_send_throw_calls in Hc as (Htok' & Hcalls').
    exists before, c, rest, ns, 4%nat.
    split_and!; [done | done | done | lia | lia | | congruence | done].
    rewrite Hcalls', Hcalls, Htok. cbn [policy_of no_options p_maxRetries default].
    by rewrite <- app_assoc.
  - apply retry_send_calls in Hc as (Htok' & _ & n & Hn & Hcalls').
    exists before, c, rest, ns, n.
    split_and!; [done | done | done | apply Hn | apply Hn | | congruence | done].
    rewrite Hcalls', Hcalls, Htok. by rewrite <- app_assoc.
Qed.

(** 51 ids make two chunks; the second one fails four times. *)
Lemma getTrackDetails_stops_at_failing_chunk_witness :
  let r := getTrackDetails test_config one_chunk_server (replicate 51 "t")
             valid_session in
  r.1 = Throw (classify server_error)
  ∧ length (api_calls (history r.2)) = 5%nat.
Proof.
  intros r.
  destruct (getTrackDetails_stops_at_failing_chunk test_config
              one_chunk_server (replicate 51 "t") valid_session valid_session
              r.2 (classify server_error))
    as (before & c & rest & ns & n & Hb & Hns & Hall & Hn & Hcalls & _ & H4).
  - reflexivity.
  - by vm_compute.
  - split; [by vm_compute|]. by vm_compute.
Defined.

(** ** From the exchange to the first refresh *)

(** X23.  A snapshot obtained by [exchangeCodeForToken] passes the
    pre-flight check untouched as long as less than [expires_in] seconds
    minus five minutes have gone by since the exchange.  From then on the
    check goes to the token endpoint: it posts one refresh grant with the
    refresh token of the exchange, and when the exchange brought no
    refresh token (or an empty one) it throws "No refresh token available"
    without sending anything. *)
Theorem exchanged_session_lifetime (config : Config) (server : Server)
    (code : string) (w w1 : World) (snapshot : AuthTokens) (elapsed : Z) :
  exchangeCodeForToken config server code w = (Return snapshot, w1) →
  let w2 := later elapsed w1 in
  ((elapsed < (expires_in snapshot - 300) * 1000)%Z →
   ensureValidToken config server w2 = (Return tt, w2))
  ∧ (((expires_in snapshot - 300) * 1000 ≤ elapsed)%Z →
     (refresh_token snapshot = None ∨ refresh_token snapshot = Some "" →
      ensureValidToken config server w2
      = (Throw (AuthenticationError "No refresh token available"), w2))
     ∧ (∀ r, refresh_token snapshot = Some r → r ≠ "" →
          history (ensureValidToken config server w2).2
          = history w2 ++ [TokenPost (refresh_token_form config r)])).
Proof.
  intros Hex w2.
  assert (Hsnap : tokens w2 = Some snapshot
                  ∧ expires_at snapshot
                    = (now w1 + expires_in snapshot * 1000)%Z).
  { unfold exchangeCodeForToken, try_catch, bind, axios_post_token in Hex.
    destruct (outcome _) as [d|err] in Hex; cbn in Hex.
    - injection Hex as <- <-. done.
    - by destruct (or_else _ _). }
  destruct Hsnap as [Htok Hexp].
  assert (Hnow : now w2 = (now w1 + elapsed)%Z) by done.
  split; [|intros Hlate; split].
  - intros Hearly. unfold ensureValidToken. rewrite Htok.
    destruct (Z.leb_spec (expires_at snapshot) (now w2 + 5 * 60 * 1000));
      [lia | done].
  - intros Hnone. unfold ensureValidToken. rewrite Htok.
    destruct (Z.leb_spec (expires_at snapshot) (now w2 + 5 * 60 * 1000));
      [|lia].
    unfold bind, refreshAccessToken, stored_refresh_token. rewrite Htok.
    by destruct Hnone as [-> | ->].
  - intros r Hr Hne. unfold ensureValidToken. rewrite Htok.
    destruct (Z.leb_spec (expires_at snapshot) (now w2 + 5 * 60 * 1000));
      [|lia].
    unfold bind.
    destruct (refreshAccessToken_cases config server w2)
      as [Hno | (t2 & r2 & o2 & w3 & Ht2 & Hr2 & _ & Hrun2 & Hh2 & _)].
    + unfold refreshAccessToken in Hno.
      rewrite (stored_refresh_token_Some w2 _ r Htok) in Hno by done.
      unfold try_catch, bind, axios_post_token in Hno.
      apply (f_equal (λ x, length (history x.2))) in Hno.
      destruct (outcome _) in Hno; cbn in Hno; rewrite length_app in Hno;
        cbn in Hno; lia.
    + assert (t2 = snapshot) as -> by congruence.
      assert (r2 = r) as -> by congruence.
      rewrite Hrun2. by destruct o2.
Qed.

(** An exchange that brings no refresh token: the session works for 55
    minutes and cannot be renewed afterwards. *)
Lemma exchanged_session_lifetime_witness :
  let server := token_server (Resolved bare_response) in
  let w1 := (exchangeCodeForToken test_config server "code" fresh_session).2 in
  ensureValidToken test_config server (later 3299999 w1)
  = (Return tt, later 3299999 w1)
  ∧ ensureValidToken test_config server (later 3300000 w1)
    = (Throw (AuthenticationError "No refresh token available"),
       later 3300000 w1).
Proof.
  intros server w1.
  pose (snapshot := {| access_token := "A"; refresh_token := None;
                       token_type := "Bearer"; expires_in := 3600;
                       scope := "x";
                       expires_at := 1700000000120 + 3600 * 1000 |}).
  split.
  - destruct (exchanged_session_lifetime test_config server "code"
                fresh_session w1 snapshot 3299999) as [H _];
      [reflexivity|].
    apply H. cbn. lia.
  - destruct (exchanged_session_lifetime test_config server "code"
                fresh_session w1 snapshot 3300000) as [_ H];
      [reflexivity|].
    destruct H as [H _]; [cbn; lia|]. apply H. by left.
Defined.
